(** * Markov decision programs: the notebooks' helper functions over ProbLog

    The repository consists of two notebooks.  Their Python code is a
    handful of helpers ([run], [precompile], [extend], [evaluate], [query])
    that call the ProbLog inference library, and one Monte Carlo estimation
    loop over sampled worlds.  The helpers are embedded as programs over the
    library's calls; the estimation loop as a function over dictionaries. *)

From Stdlib Require Import QArith.
From stdpp Require Import gmap strings list fin_maps.

Local Open Scope Z_scope.
Local Open Scope nat_scope.
Local Open Scope list_scope.
Local Open Scope stdpp_scope.

(** * Data exchanged with the library *)

(** Ground atoms ([Term] objects such as [w1]) are identified by their text. *)
Abbreviation atom := string.

(** Database handles are Python objects; they are identified by an address. *)
Abbreviation handle := nat.

(** The annotation [p::] of a probabilistic clause: a number in [0,1]. *)
Record probability := Probability {
  prob_value : Q;
  prob_range : Qle_bool 0 prob_value && Qle_bool prob_value 1 = true }.

Inductive literal :=
| Pos (a : atom)
| Neg (a : atom).

(** [p::head :- body.]  A fact has an empty body; a clause that is not
    annotated is deterministic. *)
Record clause := Clause {
  annotation : option probability;
  c_head : atom;
  c_body : list literal }.

Inductive statement :=
| SClause (c : clause)
| SQuery (a : atom)
| SEvidence (a : atom) (v : bool).

Abbreviation program := (list statement).

(** A ground program together with the queries and the evidence it is
    evaluated against ([engine.ground_all] returns one). *)
Record formula := Formula {
  f_clauses : list clause;
  f_queries : list atom;
  f_evidence : list (atom * bool) }.

Inductive evaluatable_class := DefaultEvaluatable.

Record evaluatable := Compiled { compiled : formula }.

(** What [create_from] is given: a [PrologString], a database or a formula. *)
Inductive source :=
| FromProgram (p : program)
| FromDb (db : handle)
| FromFormula (lf : formula).

(** The result of an evaluation, [{w1: 0.065, ...}], in query order. *)
Abbreviation mapping := (list (atom * Q)).

Inductive error :=
| ParseError (text : string)
| InvalidHandle (db : handle)
| InconsistentEvidence
| EngineError (msg : string).

(** * The library calls the notebooks make *)

Inductive call : Type → Type :=
| PrologString (model_str : string) : call program
| Prepare (p : program) : call handle
| DbExtend (db : handle) : call handle
| Statements (p : program) : call (list statement)
| IAdd (db : handle) (st : statement) : call handle
| GroundAll (db : handle) (queries : list atom) (evidence : list (atom * bool))
    : call formula
| GetEvaluatable : call evaluatable_class
| CreateFrom (cls : evaluatable_class) (src : source) : call evaluatable
| Evaluate (e : evaluatable) : call mapping.

Inductive api :=
| ApiPrologString | ApiPrepare | ApiDbExtend | ApiStatements | ApiIAdd
| ApiGroundAll | ApiGetEvaluatable | ApiCreateFrom | ApiEvaluate.

Definition api_of {X} (c : call X) : api :=
  match c with
  | PrologString _ => ApiPrologString
  | Prepare _ => ApiPrepare
  | DbExtend _ => ApiDbExtend
  | Statements _ => ApiStatements
  | IAdd _ _ => ApiIAdd
  | GroundAll _ _ _ => ApiGroundAll
  | GetEvaluatable => ApiGetEvaluatable
  | CreateFrom _ _ => ApiCreateFrom
  | Evaluate _ => ApiEvaluate
  end.

(** * Programs over the library *)

(** A helper's body: it returns, calls the library and goes on with the
    answer, or prints a mapping and goes on.  There is no construct that
    catches an exception, as there is no [try] in the notebooks. *)
Inductive prog (R : Type) : Type :=
| Ret (r : R)
| Call {X : Type} (c : call X) (k : X → prog R)
| Emit (m : mapping) (k : prog R).
Arguments Ret {R} r.
Arguments Call {R X} c k.
Arguments Emit {R} m k.

Fixpoint bind {A B} (p : prog A) (f : A → prog B) : prog B :=
  match p with
  | Ret r => f r
  | Call c k => Call c (λ x, bind (k x) f)
  | Emit m k => Emit m (bind k f)
  end.

#[global] Instance prog_ret : MRet prog := @Ret.
#[global] Instance prog_bind : MBind prog := λ A B f p, bind p f.

Definition call_ {X} (c : call X) : prog X := Call c Ret.
Definition print (m : mapping) : prog unit := Emit m (Ret tt).

(** * The helper functions *)

(** Introduction to Probability Theory Using ProbLog, cell 6. *)
Module Intro.

(** def run(model_str):
        model = PrologString(model_str)
        print(get_evaluatable().create_from(model).evaluate()) *)
Definition run (model_str : string) : prog unit :=
  model ← call_ (PrologString model_str);
  cls ← call_ GetEvaluatable;
  e ← call_ (CreateFrom cls (FromProgram model));
  result ← call_ (Evaluate e);
  print result.

End Intro.

(** Representing MDPs with ProbLog, cell 1. *)
Module MDP.

(** def precompile(model_str):
        db = engine.prepare(PrologString(model_str))
        return db *)
Definition precompile (model_str : string) : prog handle :=
  p ← call_ (PrologString model_str);
  db ← call_ (Prepare p);
  mret db.

(** The loop [for statement in ...: db2 += statement]; the augmented
    assignment rebinds [db2] to what [+=] returns. *)
Fixpoint add_statements (db2 : handle) (statements : list statement)
    : prog handle :=
  match statements with
  | [] => mret db2
  | statement :: rest =>
      db2' ← call_ (IAdd db2 statement);
      add_statements db2' rest
  end.

(** def extend(db, model_str):
        db2 = db.extend()
        for statement in PrologString(model_str):
            db2 += statement
        return db2 *)
Definition extend (db : handle) (model_str : string) : prog handle :=
  db2 ← call_ (DbExtend db);
  p ← call_ (PrologString model_str);
  statements ← call_ (Statements p);
  add_statements db2 statements.

(** def evaluate(db):
        return get_evaluatable().create_from(db).evaluate() *)
Definition evaluate (db : source) : prog mapping :=
  cls ← call_ GetEvaluatable;
  e ← call_ (CreateFrom cls db);
  call_ (Evaluate e).

(** def query(model, queries, evidence=None):
        if isinstance(model, str):
            db = precompile(model)
        else:
            db = model
        if evidence is None:
            evidence = []
        lf = engine.ground_all(db, queries=queries, evidence=evidence)
        return evaluate(lf) *)
Definition query (model : string + handle) (queries : list atom)
    (evidence : option (list (atom * bool))) : prog mapping :=
  db ← match model with
       | inl model_str => precompile model_str
       | inr db => mret db
       end;
  let evidence := match evidence with
                  | None => []
                  | Some evidence => evidence
                  end in
  lf ← call_ (GroundAll db queries evidence);
  evaluate (FromFormula lf).

(** query(model, queries): a call that leaves [evidence] out binds it to
    the default of the signature, [evidence=None]. *)
Definition query_default (model : string + handle) (queries : list atom)
    : prog mapping :=
  query model queries None.

(** def run(model_str):
        db = precompile(model_str)
        return evaluate(db) *)
Definition run (model_str : string) : prog mapping :=
  db ← precompile model_str;
  evaluate (FromDb db).

End MDP.

(** * Running a helper against an engine *)

(** An engine answers every call with a value or raises an error, and may
    change its state.  [S] is whatever the engine keeps between calls. *)
Definition engine (S : Type) : Type := ∀ X, call X → S → (error + X) * S.

Inductive outcome (R : Type) : Type :=
| Returned (r : R)
| Raised (e : error).
Arguments Returned {R} r.
Arguments Raised {R} e.

(** What is observed of a run: how it ended, the engine's state, what was
    printed, and the calls made with the error each raised, if any. *)
Record run_result (S R : Type) : Type := RunResult {
  result : outcome R;
  final : S;
  stdout : list mapping;
  calls : list (api * option error) }.
Arguments RunResult {S R} result final stdout calls.
Arguments result {S R} r.
Arguments final {S R} r.
Arguments stdout {S R} r.
Arguments calls {S R} r.

(** A call raised [e]: the run ends there. *)
Definition raised {S R} (a : api) (e : error) (σ : S) : run_result S R :=
  RunResult (Raised e) σ [] [(a, Some e)].

(** A call answered: it is recorded before what the rest of the run does. *)
Definition called {S R} (a : api) (r : run_result S R) : run_result S R :=
  RunResult (result r) (final r) (stdout r) ((a, None) :: calls r).

Definition printed {S R} (m : mapping) (r : run_result S R) : run_result S R :=
  RunResult (result r) (final r) (m :: stdout r) (calls r).

Fixpoint exec {S R} (h : engine S) (p : prog R) (σ : S) : run_result S R :=
  match p with
  | Ret r => RunResult (Returned r) σ [] []
  | Call c k =>
      match h _ c σ with
      | (inl e, σ') => raised (api_of c) e σ'
      | (inr x, σ') => called (api_of c) (exec h (k x) σ')
      end
  | Emit m k => printed m (exec h k σ)
  end.

(** The library calls made, in order. *)
Definition api_calls {S R} (r : run_result S R) : list api := (calls r).*1.

(** Every way the notebooks' helpers can be invoked. *)
Inductive invocation : Type → Type :=
| IntroRun (model_str : string) : invocation unit
| Precompile (model_str : string) : invocation handle
| Extend (db : handle) (model_str : string) : invocation handle
| EvaluateOn (db : source) : invocation mapping
| Query (model : string + handle) (queries : list atom)
    (evidence : option (list (atom * bool))) : invocation mapping
| MDPRun (model_str : string) : invocation mapping.

Definition helper {R} (i : invocation R) : prog R :=
  match i with
  | IntroRun model_str => Intro.run model_str
  | Precompile model_str => MDP.precompile model_str
  | Extend db model_str => MDP.extend db model_str
  | EvaluateOn db => MDP.evaluate db
  | Query model queries evidence => MDP.query model queries evidence
  | MDPRun model_str => MDP.run model_str
  end.

(** A run makes the calls [expected]: all of them when it returns, the
    first ones up to the call that raised otherwise. *)
Definition makes {S R} (r : run_result S R) (expected : list api) : Prop :=
  api_calls r `prefix_of` expected ∧
  ∀ x, result r = Returned x → api_calls r = expected.

(** A run fails with [e]: it raises [e] and nothing else, returns nothing,
    prints nothing, and leaves the engine as the raising call left it. *)
Definition fails_with {S R} (r : run_result S R) (e : error) (σ' : S) : Prop :=
  result r = Raised e ∧ final r = σ' ∧ stdout r = [].

(** * The library's behaviour

    The inference engine is a third-party library; its code is not part of
    the repository.  What the notebooks rely on is modelled here for ground
    programs, with exact rational arithmetic in place of floating point. *)
Module ProbLog.

(** Modelled from the spec: the engine's database objects are missing.
    [An extend operation that layers additional rules/facts onto an
    existing database handle, producing a new handle]: a database is a
    layer of its own statements on top of its parent's. *)
Record node := Node {
  parent : option handle;
  own : list statement }.

(** The databases allocated so far; a handle is an index. *)
Abbreviation store := (list node).

Fixpoint contents_upto (fuel : nat) (σ : store) (db : handle)
    : list statement :=
  match fuel with
  | 0 => []
  | S fuel' =>
      match σ !! db with
      | None => []
      | Some n =>
          match parent n with
          | None => []
          | Some p => contents_upto fuel' σ p
          end ++ own n
      end
  end.

(** The statements visible through a handle: the parent's, then its own. *)
Definition contents (σ : store) (db : handle) : list statement :=
  contents_upto (S db) σ db.

(** Parents are allocated before their children. *)
Definition well_formed (σ : store) : Prop :=
  ∀ db n p, σ !! db = Some n → parent n = Some p → p < db.

Definition clauses_of (p : program) : list clause :=
  omap (λ st, match st with SClause c => Some c | _ => None end) p.

Definition queries_of (p : program) : list atom :=
  omap (λ st, match st with SQuery a => Some a | _ => None end) p.

Definition evidence_of (p : program) : list (atom * bool) :=
  omap (λ st, match st with SEvidence a v => Some (a, v) | _ => None end) p.

(** Modelled from the spec: the engine's grounding is missing.  [An
    evaluate operation that grounds the program against declared queries
    and evidence]. *)
Definition ground (p : program) : formula :=
  Formula (clauses_of p) (queries_of p) (evidence_of p).

(** Modelled from the spec: the engine's semantics is missing.  [Possible
    world: a complete truth assignment to all probabilistic facts]: one
    truth value per annotated clause, in program order. *)
Abbreviation world := (list bool).

Fixpoint all_worlds (cs : list clause) : list world :=
  match cs with
  | [] => [[]]
  | c :: cs' =>
      match annotation c with
      | None => all_worlds cs'
      | Some _ =>
          (cons true <$> all_worlds cs') ++ (cons false <$> all_worlds cs')
      end
  end.

(** The number of probabilistic facts: one per annotated clause. *)
Definition facts (cs : list clause) : nat := length (omap annotation cs).

(** Modelled from the spec: [with probability equal to the product of
    chosen facts' success/failure probabilities]. *)
Fixpoint world_probability (cs : list clause) (w : world) : Q :=
  match cs with
  | [] => 1
  | c :: cs' =>
      match annotation c with
      | None => world_probability cs' w
      | Some p =>
          match w with
          | [] => 0
          | b :: w' =>
              (if b then prob_value p else 1 - prob_value p)
              * world_probability cs' w'
          end
      end
  end%Q.

(** The clauses in force in a world: the deterministic ones and the
    annotated ones whose fact is true. *)
Fixpoint in_force (cs : list clause) (w : world) : list clause :=
  match cs with
  | [] => []
  | c :: cs' =>
      match annotation c with
      | None => c :: in_force cs' w
      | Some _ =>
          match w with
          | [] => in_force cs' []
          | b :: w' => if b then c :: in_force cs' w' else in_force cs' w'
          end
      end
  end.

(** Modelled from the spec: [Negation as failure: a literal not(p) holds
    when p cannot be derived from the program's facts and rules].  The
    search is cut at depth [fuel], which is enough for programs whose
    rules do not call themselves. *)
Fixpoint derivable (fuel : nat) (rules : list clause) (a : atom) : bool :=
  match fuel with
  | 0 => false
  | S fuel' =>
      existsb (λ c,
        if String.eqb (c_head c) a
        then forallb (λ l, match l with
                           | Pos b => derivable fuel' rules b
                           | Neg b => negb (derivable fuel' rules b)
                           end) (c_body c)
        else false) rules
  end.

Definition entails (rules : list clause) (a : atom) : bool :=
  derivable (S (length rules)) rules a.

(** Modelled from the spec: [Evidence: an observed truth-value constraint
    on an atom]. *)
Definition consistent (evidence : list (atom * bool)) (rules : list clause)
    : bool :=
  forallb (λ ev, Bool.eqb (entails rules ev.1) ev.2) evidence.

Definition Qsum (l : list Q) : Q := foldr Qplus 0%Q l.

(** The total probability of the worlds in which [φ] holds. *)
Definition mass (cs : list clause) (φ : list clause → bool) : Q :=
  Qsum ((λ w, if φ (in_force cs w) then world_probability cs w else 0%Q)
          <$> all_worlds cs).

(** Modelled from the spec: the engine's evaluation is missing.
    [Weighted model counting: ... computes marginal probabilities of
    queried atoms by summing possible-world probabilities consistent with
    the query and evidence]; evidence conditions the distribution, and
    unsatisfiable evidence is a failure. *)
Definition wmc (lf : formula) : error + mapping :=
  let cs := f_clauses lf in
  let z := mass cs (consistent (f_evidence lf)) in
  if Qeq_bool z 0 then inl InconsistentEvidence
  else inr ((λ q, (q, (mass cs (λ w, entails w q
                                     && consistent (f_evidence lf) w) / z)%Q))
              <$> f_queries lf).

(** Every value of a mapping is a probability. *)
Definition probabilities (m : mapping) : Prop :=
  Forall (λ entry, (0 <= entry.2)%Q ∧ (entry.2 <= 1)%Q) m.

(** The terms a source is evaluated for: its declared queries, or for a
    formula the queries it was grounded for. *)
Definition queried (σ : store) (src : source) : list atom :=
  match src with
  | FromProgram p => queries_of p
  | FromDb db => queries_of (contents σ db)
  | FromFormula lf => f_queries lf
  end.

Definition checked {X} (σ : store) (db : handle) (x : X)
    : (error + X) * store :=
  match σ !! db with
  | None => (inl (InvalidHandle db), σ)
  | Some _ => (inr x, σ)
  end.

Section Engine.

(** The library's parser, from program text to statements. *)
Variable parse : string → error + program.

(** Modelled from the spec: the engine's operations are missing.  The
    constructor parses; prepare compiles a program into a new database;
    extend layers a new, empty database on an existing one; [+=] adds a
    statement to its left operand, in place; iteration and
    [get_evaluatable] have no effect on databases. *)
Definition problog : engine store := λ X c,
  match c in call X return store → (error + X) * store with
  | PrologString model_str => λ σ, (parse model_str, σ)
  | Prepare p => λ σ, (inr (length σ), σ ++ [Node None p])
  | DbExtend db => λ σ,
      match σ !! db with
      | None => (inl (InvalidHandle db), σ)
      | Some _ => (inr (length σ), σ ++ [Node (Some db) []])
      end
  | Statements p => λ σ, (inr p, σ)
  | IAdd db st => λ σ,
      match σ !! db with
      | None => (inl (InvalidHandle db), σ)
      | Some n => (inr db, <[db := Node (parent n) (own n ++ [st])]> σ)
      end
  | GroundAll db queries evidence => λ σ,
      checked σ db (Formula (clauses_of (contents σ db)) queries evidence)
  | GetEvaluatable => λ σ, (inr DefaultEvaluatable, σ)
  | CreateFrom _ src => λ σ,
      match src with
      | FromProgram p => (inr (Compiled (ground p)), σ)
      | FromDb db => checked σ db (Compiled (ground (contents σ db)))
      | FromFormula lf => (inr (Compiled lf), σ)
      end
  | Evaluate e => λ σ, (wmc (compiled e), σ)
  end.

End Engine.

End ProbLog.

(** * The programs of the introduction notebook *)
Module Notebook.

Definition fact (p : probability) (a : atom) : statement :=
  SClause (Clause (Some p) a []).
Definition rule (a : atom) (body : list literal) : statement :=
  SClause (Clause None a body).
Definition prule (p : probability) (a : atom) (body : list literal)
    : statement :=
  SClause (Clause (Some p) a body).

Definition p010 := Probability 0.10 eq_refl.
Definition p01 := Probability 0.1 eq_refl.
Definition p02 := Probability 0.2 eq_refl.
Definition p03 := Probability 0.3 eq_refl.
Definition p06 := Probability 0.6 eq_refl.
Definition p065 := Probability 0.65 eq_refl.
Definition p08 := Probability 0.8 eq_refl.

(** Cell 4. *)
Definition hello : string := "
0.8::p.
0.1::q.
r :- not(p), q.
evidence(q).
query(r).
".
Definition hello_program : program :=
  [ fact p08 "p"; fact p01 "q"; rule "r" [Neg "p"; Pos "q"];
    SEvidence "q" true; SQuery "r" ].

(** Cell 7. *)
Definition m1 : string := "
0.65::a.
0.10::b.
query(a).
query(b).
".
Definition m1_program : program :=
  [ fact p065 "a"; fact p010 "b"; SQuery "a"; SQuery "b" ].

(** Cell 8. *)
Definition m2 : string := "
0.65::a.
0.10::b.
w1 :- a, b.
query(w1).
".
Definition m2_program : program :=
  [ fact p065 "a"; fact p010 "b"; rule "w1" [Pos "a"; Pos "b"];
    SQuery "w1" ].

(** Cell 9. *)
Definition m3 : string := "
0.65::a.
0.10::b.
not_a :- not(a).
not_b :- not(b).
query(not_a).
query(not_b).
".
Definition m3_program : program :=
  [ fact p065 "a"; fact p010 "b";
    rule "not_a" [Neg "a"]; rule "not_b" [Neg "b"];
    SQuery "not_a"; SQuery "not_b" ].

(** Cell 10. *)
Definition m4 : string := "
0.65::a.
0.10::b.
w1 :- a, b.
w2 :- a, not(b).
w3 :- not(a), b.
w4 :- not(a), not(b).
query(w1).
query(w2).
query(w3).
query(w4).
".
Definition m4_program : program :=
  [ fact p065 "a"; fact p010 "b";
    rule "w1" [Pos "a"; Pos "b"];
    rule "w2" [Pos "a"; Neg "b"];
    rule "w3" [Neg "a"; Pos "b"];
    rule "w4" [Neg "a"; Neg "b"];
    SQuery "w1"; SQuery "w2"; SQuery "w3"; SQuery "w4" ].

(** Cell 11. *)
Definition m5 : string := "
0.2::p.
0.3::q.
0.8::r :- p.
0.6::r :- not(p), q.
0.1::r :- not(p), not(q).
evidence(p, false).
evidence(q, true).
query(r).
".
Definition m5_program : program :=
  [ fact p02 "p"; fact p03 "q";
    prule p08 "r" [Pos "p"];
    prule p06 "r" [Neg "p"; Pos "q"];
    prule p01 "r" [Neg "p"; Neg "q"];
    SEvidence "p" false; SEvidence "q" true; SQuery "r" ].

(** Cell 12. *)
Definition m6 : string := "
0.2::p.
0.3::q.
0.8::aux1.
0.6::aux2.
0.1::aux3.
r :- p, aux1.
r :- not(p), q, aux2.
r :- not(p), not(q), aux3.
evidence(p, false).
evidence(q, false).
query(r).
".
Definition m6_program : program :=
  [ fact p02 "p"; fact p03 "q";
    fact p08 "aux1"; fact p06 "aux2"; fact p01 "aux3";
    rule "r" [Pos "p"; Pos "aux1"];
    rule "r" [Neg "p"; Pos "q"; Pos "aux2"];
    rule "r" [Neg "p"; Neg "q"; Pos "aux3"];
    SEvidence "p" false; SEvidence "q" false; SQuery "r" ].

(** Cell 13. *)
Definition model : string := "
0.8::a.
0.2::b.
c :- a, b.
query(a).
query(b).
query(c).
".
Definition model_program : program :=
  [ fact p08 "a"; fact p02 "b"; rule "c" [Pos "a"; Pos "b"];
    SQuery "a"; SQuery "b"; SQuery "c" ].

Definition programs : list (string * program) :=
  [ (hello, hello_program); (m1, m1_program); (m2, m2_program);
    (m3, m3_program); (m4, m4_program); (m5, m5_program);
    (m6, m6_program); (model, model_program) ].

(** The library's parser on the texts above, read by hand; any other text
    is rejected.  It stands for the parser where a concrete engine is
    needed. *)
Definition parse (text : string) : error + program :=
  match find (λ entry, String.eqb entry.1 text) programs with
  | Some entry => inr entry.2
  | None => inl (ParseError text)
  end.

Definition engine : engine ProbLog.store := ProbLog.problog parse.

End Notebook.

(** * The Monte Carlo estimation of the sampling cell *)
Module Sampling.

(** One sampled world, as [format='dict'] returns it. *)
Abbreviation sample := (gmap atom bool).

Inductive exception :=
| IndexError
| KeyError (key : atom).

(** count = { atom: 0 for atom in result[0].keys() } *)
Definition zero_counts (first : sample) : gmap atom Z := (λ _, 0%Z) <$> first.

(** count[atom] += int(value): the entry is read, which raises a key
    error when it is missing, and then written. *)
Definition add_item (atom : string) (value : bool) (count : gmap string Z)
    : exception + gmap string Z :=
  match count !! atom with
  | None => inl (KeyError atom)
  | Some positive => inr (<[atom := (positive + Z.b2z value)%Z]> count)
  end.

(** for atom, value in model_sample.items(): ...
    The items are visited in the order the map enumerates them. *)
Definition add_sample (count : gmap atom Z) (model_sample : sample)
    : exception + gmap atom Z :=
  map_fold (λ atom value acc,
              match acc with
              | inl e => inl e
              | inr count => add_item atom value count
              end) (inr count) model_sample.

(** for model_sample in result: ... *)
Fixpoint add_samples (count : gmap atom Z) (result : list sample)
    : exception + gmap atom Z :=
  match result with
  | [] => inr count
  | model_sample :: rest =>
      match add_sample count model_sample with
      | inl e => inl e
      | inr count' => add_samples count' rest
      end
  end.

(** positive / len(result), Python's true division, taken exactly. *)
Definition true_div (positive : Z) (n : nat) : Q :=
  (inject_Z positive / inject_Z (Z.of_nat n))%Q.

(** count = { atom: 0 for atom in result[0].keys() }
    for model_sample in result:
        for atom, value in model_sample.items():
            count[atom] += int(value)
    estimates = { atom: positive / len(result)
                  for atom, positive in count.items() }

    [result[0]] raises an index error on an empty list, so the division
    is by a positive length. *)
Definition estimates (result : list sample) : exception + gmap atom Q :=
  match result with
  | [] => inl IndexError
  | first :: _ =>
      match add_samples (zero_counts first) result with
      | inl e => inl e
      | inr count => inr ((λ positive, true_div positive (length result)) <$> count)
      end
  end.

(** The number of samples in which [atom] is true. *)
Definition times_true (atom : string) (result : list sample) : nat :=
  length (filter (λ model_sample : sample, model_sample !! atom = Some true) result).

(** What one sample adds to the count of [atom]: int(value). *)
Definition hit (model_sample : sample) (atom : string) : Z :=
  match model_sample !! atom with
  | Some true => 1
  | _ => 0
  end.

End Sampling.

(** * The cells of the MDP notebook that build queries and evidence *)
Module Cells.

(** A [Term] object: a functor with its arguments; [Constant(i)] is a
    number, and [None] stands for an argument left unbound. *)
#[local] Set Warnings "-register-all".
Inductive term :=
| Term (functor : string) (args : list term)
| Constant (value : Z)
| Unbound.

(** [t(a1, ..., an)]: the term with the functor of [t] and these arguments.
    The notebooks apply functors only. *)
Definition with_args (t : term) (args : list term) : term :=
  match t with
  | Term functor _ => Term functor args
  | other => other
  end.

(** Cell 1: TMAX = 10; timestep = Term('timestep');
    running = Term('running'); t0 = Constant(0). *)
Definition TMAX : nat := 10.
Definition timestep : term := Term "timestep" [].
Definition running : term := Term "running" [].
Definition t0 : term := Constant 0.

(** Cell 3:
      timesteps = []
      for i in range(TMAX):
          timesteps.append(timestep(Constant(i))) *)
Definition timesteps_upto (tmax : nat) : list term :=
  foldl (λ timesteps i,
           timesteps ++ [with_args timestep [Constant (Z.of_nat i)]])
    [] (seq 0 tmax).

Definition timesteps : list term := timesteps_upto TMAX.

(** itertools.product of the pools, as the Python documentation defines it:
      result = [[]]
      for pool in pools:
          result = [x+[y] for x in result for y in pool] *)
Definition product {A} (pools : list (list A)) : list (list A) :=
  foldl (λ result pool, x ← result; y ← pool; [x ++ [y]]) [[]] pools.

(** One round of the product over the pool (True, False): every tuple is
    continued by both values. *)
Definition both_values (result : list (list bool)) : list (list bool) :=
  x ← result; y ← [true; false]; [x ++ [y]].

(** Cell 4: the product of [(True, False)] repeated three times, for any
    number of repetitions. *)
Definition initial_states (n : nat) : list (list bool) :=
  product (replicate n [true; false]).

(** Cell 4:
      evidence = []
      for c, val in zip(computers, values):
          evidence.append((running(t0, c), val)) *)
Definition evidence_for (computers : list term) (values : list bool)
    : list (term * bool) :=
  foldl (λ evidence item,
           evidence ++ [(with_args running [t0; item.1], item.2)])
    [] (zip computers values).

(** The evidence lists of the iterations of the loop of cell 4, in order. *)
Definition initial_evidences (computers : list term) (n : nat)
    : list (list (term * bool)) :=
  evidence_for computers <$> initial_states n.

End Cells.

(** * Running programs: general facts *)

Ltac unfold_helpers :=
  unfold helper, Intro.run, MDP.run, MDP.query, MDP.evaluate, MDP.extend,
    MDP.precompile, print, call_, mbind, prog_bind, mret, prog_ret;
  cbn [bind].

(** Case analysis on the engine's answer to the next call. *)
Ltac answer h :=
  match goal with
  | |- context [h ?X ?c ?σ] =>
      let e := fresh "e" in
      let x := fresh "x" in
      let σ' := fresh "σ" in
      let E := fresh "E" in
      destruct (h X c σ) as [[e|x] σ'] eqn:E; cbn
  end.

Section Exec.

Context {S : Type} (h : engine S).

Lemma exec_bind {A B} (p : prog A) (f : A → prog B) (σ : S) :
  exec h (bind p f) σ =
  let r := exec h p σ in
  match result r with
  | Returned x =>
      let r' := exec h (f x) (final r) in
      RunResult (result r') (final r') (stdout r ++ stdout r')
        (calls r ++ calls r')
  | Raised e => RunResult (Raised e) (final r) (stdout r) (calls r)
  end.
Proof.
  revert σ. induction p as [x|X c k IH|m k IH]; intros σ; cbn.
  - by destruct (exec h (f x) σ).
  - destruct (h X c σ) as [[e|x] σ']; cbn; [done|].
    rewrite IH. cbn. by destruct (result (exec h (k x) σ')).
  - rewrite IH. cbn. by destruct (result (exec h k σ)).
Qed.

(** The first call that raises ends the run: its error is the run's. *)
Lemma exec_raise {R} (p : prog R) (σ : S) (a : api) (e : error) :
  (a, Some e) ∈ calls (exec h p σ) →
  result (exec h p σ) = Raised e ∧ last (calls (exec h p σ)) = Some (a, Some e).
Proof.
  revert σ. induction p as [x|X c k IH|m k IH]; intros σ; cbn.
  - by intros ?%elem_of_nil.
  - destruct (h X c σ) as [[e'|x] σ']; cbn.
    + intros Hin%list_elem_of_singleton. by simplify_eq.
    + intros Hin%elem_of_cons. destruct Hin as [?|Hin]; [done|].
      destruct (IH x σ' Hin) as [Hres Hlast]. split; [done|].
      destruct (calls (exec h (k x) σ')); [done|]. exact Hlast.
  - apply IH.
Qed.

(** An error of a run is the error of its last call. *)
Lemma exec_raised_origin {R} (p : prog R) (σ : S) (e : error) :
  result (exec h p σ) = Raised e →
  ∃ a, last (calls (exec h p σ)) = Some (a, Some e).
Proof.
  revert σ. induction p as [x|X c k IH|m k IH]; intros σ; cbn.
  - done.
  - destruct (h X c σ) as [[e'|x] σ']; cbn.
    + intros [= ->]. by eexists.
    + intros Hres. destruct (IH x σ' Hres) as [a Hlast]. exists a.
      destruct (calls (exec h (k x) σ')); [done|]. exact Hlast.
  - apply IH.
Qed.

(** The loop of [extend] makes one call per statement. *)
Lemma add_statements_calls (statements : list statement) (db2 : handle) (σ : S) :
  api_calls (exec h (MDP.add_statements db2 statements) σ)
    `prefix_of` replicate (length statements) ApiIAdd ∧
  ∀ db, result (exec h (MDP.add_statements db2 statements) σ) = Returned db →
    api_calls (exec h (MDP.add_statements db2 statements) σ)
    = replicate (length statements) ApiIAdd.
Proof.
  revert db2 σ. induction statements as [|st rest IH]; intros db2 σ.
  - split; [apply prefix_nil | done].
  - cbn. unfold_helpers. cbn. answer h.
    + split; [|done]. by apply prefix_cons, prefix_nil.
    + destruct (IH x σ0) as [Hpre Heq]. unfold api_calls in *. cbn.
      split; [by apply prefix_cons|]. intros db Hres.
      f_equal. by eapply Heq.
Qed.

End Exec.

(** * The helpers as compositions of library calls *)

Section Helpers.

Context {S : Type} (h : engine S).

Lemma add_statements_makes (statements : list statement) (db2 : handle) (σ : S) :
  makes (exec h (MDP.add_statements db2 statements) σ)
    (replicate (length statements) ApiIAdd).
Proof. apply add_statements_calls. Qed.

Lemma add_statements_stdout (statements : list statement) (db2 : handle) (σ : S) :
  stdout (exec h (MDP.add_statements db2 statements) σ) = [].
Proof.
  revert db2 σ. induction statements as [|st rest IH]; intros db2 σ; [done|].
  cbn. unfold_helpers. cbn. answer h; [done|]. apply IH.
Qed.

Lemma makes_called {R} (r : run_result S R) (a : api) (l : list api) :
  makes r l → makes (called a r) (a :: l).
Proof.
  intros [Hpre Heq]. split.
  - by apply prefix_cons.
  - intros x Hx. unfold api_calls. cbn. f_equal. by apply (Heq x).
Qed.

Lemma makes_raised {R} (e : error) (σ : S) (a : api) (l : list api) :
  makes (raised (R:=R) a e σ) (a :: l).
Proof. split; [by apply prefix_cons, prefix_nil|done]. Qed.

Lemma makes_printed {R} (r : run_result S R) (m : mapping) (l : list api) :
  makes r l → makes (printed m r) l.
Proof. done. Qed.

Lemma makes_returned {R} (x : R) (σ : S) :
  makes (RunResult (Returned x) σ [] []) [].
Proof. done. Qed.

End Helpers.

(** Follows a straight-line helper call by call. *)
Ltac next_call h :=
  match goal with
  | |- context [h ?X ?c ?σ] =>
      let e := fresh "e" in
      let x := fresh "x" in
      let σ' := fresh "σ" in
      let E := fresh "E" in
      destruct (h X c σ) as [[e|x] σ'] eqn:E
  end.

Ltac follow h :=
  unfold_helpers; cbn [exec api_of];
  repeat first
    [ apply makes_returned
    | apply makes_raised
    | apply makes_called
    | apply makes_printed
    | next_call h ].

(** ** C1: what the helpers forward to *)

(** C1, as the code has it.  Every helper is a short composition of library
    calls without error handling, but not a single call: [precompile] makes
    two calls, [evaluate] three, the two [run] helpers four and five.
    [extend] calls [db.extend()], the constructor and the iteration once
    each and then [+=] once per statement of the program.  [query] analyses
    its arguments: a string is precompiled first and a handle is used as it
    is, and an absent evidence is replaced by the empty list; it then calls
    [ground_all] once and [evaluate]. *)
Theorem helpers_call_sequences {S} (h : engine S) (σ : S) :
  (∀ s, makes (exec h (MDP.precompile s) σ) [ApiPrologString; ApiPrepare]) ∧
  (∀ db, makes (exec h (MDP.evaluate db) σ)
           [ApiGetEvaluatable; ApiCreateFrom; ApiEvaluate]) ∧
  (∀ s, makes (exec h (Intro.run s) σ)
          [ApiPrologString; ApiGetEvaluatable; ApiCreateFrom; ApiEvaluate]) ∧
  (∀ s, makes (exec h (MDP.run s) σ)
          [ApiPrologString; ApiPrepare; ApiGetEvaluatable; ApiCreateFrom;
           ApiEvaluate]) ∧
  (∀ db s db2 σ1 p σ2 statements σ3,
     h _ (DbExtend db) σ = (inr db2, σ1) →
     h _ (PrologString s) σ1 = (inr p, σ2) →
     h _ (Statements p) σ2 = (inr statements, σ3) →
     makes (exec h (MDP.extend db s) σ)
       ([ApiDbExtend; ApiPrologString; ApiStatements]
        ++ replicate (length statements) ApiIAdd)) ∧
  (∀ db s, ∃ n, makes (exec h (MDP.extend db s) σ)
       ([ApiDbExtend; ApiPrologString; ApiStatements] ++ replicate n ApiIAdd)) ∧
  (∀ db queries evidence,
     makes (exec h (MDP.query (inr db) queries evidence) σ)
       [ApiGroundAll; ApiGetEvaluatable; ApiCreateFrom; ApiEvaluate]) ∧
  (∀ s queries evidence,
     makes (exec h (MDP.query (inl s) queries evidence) σ)
       [ApiPrologString; ApiPrepare; ApiGroundAll; ApiGetEvaluatable;
        ApiCreateFrom; ApiEvaluate]) ∧
  (∀ model queries,
     MDP.query model queries None = MDP.query model queries (Some [])).
Proof.
  do 4 (split; [intros; follow h|]).
  split; [|split; [|split; [|split]]]; intros.
  - unfold_helpers. cbn [exec api_of]. rewrite H, H0, H1. cbn [app].
    do 3 apply makes_called. apply add_statements_makes.
  - unfold_helpers. cbn [exec api_of].
    destruct (h _ (DbExtend db) σ) as [[e|db2] σ1].
    { exists 0. apply makes_raised. }
    destruct (h _ (PrologString s) σ1) as [[e|p] σ2].
    { exists 0. apply makes_called, makes_raised. }
    destruct (h _ (Statements p) σ2) as [[e|statements] σ3].
    { exists 0. do 2 apply makes_called. apply makes_raised. }
    exists (length statements). cbn [app].
    do 3 apply makes_called. apply add_statements_makes.
  - follow h.
  - follow h.
  - done.
Qed.

(** C1 on cell 8's program: the calls the helpers make, one after another. *)
Lemma helpers_call_sequences_witness :
  makes (exec Notebook.engine (MDP.extend 0 Notebook.m2) [ProbLog.Node None []])
    [ApiDbExtend; ApiPrologString; ApiStatements;
     ApiIAdd; ApiIAdd; ApiIAdd; ApiIAdd].
Proof.
  exact (proj1 (proj2 (proj2 (proj2 (proj2
           (helpers_call_sequences Notebook.engine [ProbLog.Node None []])))))
         0 Notebook.m2 _ _ _ _ _ _ eq_refl eq_refl eq_refl).
Defined.

(** C1 as stated fails: on the program of cell 8, [extend] makes seven
    library calls, and [query] six for the text and four for a handle. *)
Lemma extend_query_several_calls :
  api_calls (exec Notebook.engine (MDP.extend 0 Notebook.m2)
               [ProbLog.Node None []])
  = [ApiDbExtend; ApiPrologString; ApiStatements;
     ApiIAdd; ApiIAdd; ApiIAdd; ApiIAdd] ∧
  api_calls (exec Notebook.engine (MDP.query (inl Notebook.m2) ["w1"] None) [])
  = [ApiPrologString; ApiPrepare; ApiGroundAll; ApiGetEvaluatable;
     ApiCreateFrom; ApiEvaluate] ∧
  api_calls (exec Notebook.engine (MDP.query (inr 0) ["w1"] None)
               [ProbLog.Node None Notebook.m2_program])
  = [ApiGroundAll; ApiGetEvaluatable; ApiCreateFrom; ApiEvaluate].
Proof. by vm_compute. Qed.

(** ** C3: errors of the library *)

Lemma helper_raised_silent {S} (h : engine S) (σ : S) {R} (i : invocation R)
    (e : error) :
  result (exec h (helper i) σ) = Raised e → stdout (exec h (helper i) σ) = [].
Proof.
  destruct i as [s|s|db s|src|[s|db] queries evidence|s];
    unfold_helpers; cbn [exec api_of];
    repeat (next_call h; [done|]); try done.
  intros _. cbn. apply add_statements_stdout.
Qed.

(** A call that raises is the last one of a helper, whichever call it is. *)
Lemma helper_call_raised {S} (h : engine S) (σ : S) {R}
    (i : invocation R) (a : api) (e : error) :
  (a, Some e) ∈ calls (exec h (helper i) σ) →
  result (exec h (helper i) σ) = Raised e ∧
  last (calls (exec h (helper i) σ)) = Some (a, Some e) ∧
  stdout (exec h (helper i) σ) = [].
Proof.
  intros Hin. destruct (exec_raise h _ _ _ _ Hin) as [Hres Hlast].
  split; [done|]. split; [done|]. by eapply helper_raised_silent.
Qed.

Section Failures.

Context {S : Type} (h : engine S).

Lemma fails_with_called {R} (a : api) (r : run_result S R) (e : error) (σ' : S) :
  fails_with r e σ' → fails_with (called a r) e σ'.
Proof. done. Qed.

(** The loop stops at the first [+=] that raises. *)
Lemma add_statements_raise (pre : list statement) (st : statement)
    (post : list statement) :
  ∀ (db2 : handle) (σ : S) (db2' : handle) (σ1 σ' : S) (e : error),
    result (exec h (MDP.add_statements db2 pre) σ) = Returned db2' →
    final (exec h (MDP.add_statements db2 pre) σ) = σ1 →
    h _ (IAdd db2' st) σ1 = (inl e, σ') →
    fails_with (exec h (MDP.add_statements db2 (pre ++ st :: post)) σ) e σ'.
Proof.
  induction pre as [|x pre IH]; intros db2 σ db2' σ1 σ' e Hres Hfin Hst.
  - cbn in Hres, Hfin. simplify_eq. cbn. unfold_helpers. cbn [exec api_of].
    by rewrite Hst.
  - cbn in *. unfold_helpers. cbn [exec api_of] in *.
    destruct (h _ (IAdd db2 x) σ) as [[e'|d] σ2]; [done|].
    apply fails_with_called. by eapply IH.
Qed.

End Failures.

(** C3.  No helper catches or changes an error.  For every engine and
    every call a helper makes on its arguments, in the order of the source:
    when the calls before it answer and this one raises [e], the helper
    raises [e], returns nothing, prints nothing, and makes no further call.
    The conjuncts go through [precompile], [evaluate], [extend] (with the
    [+=] of its loop), [query] on a handle and on a text, and the two [run]
    helpers. *)
Theorem helpers_raise_engine_errors {S} (h : engine S) (σ σ' : S) (e : error) :
  (∀ model_str,
     h _ (PrologString model_str) σ = (inl e, σ') →
     fails_with (exec h (MDP.precompile model_str) σ) e σ') ∧
  (∀ model_str p σ1,
     h _ (PrologString model_str) σ = (inr p, σ1) →
     h _ (Prepare p) σ1 = (inl e, σ') →
     fails_with (exec h (MDP.precompile model_str) σ) e σ') ∧
  (∀ db,
     h _ GetEvaluatable σ = (inl e, σ') →
     fails_with (exec h (MDP.evaluate db) σ) e σ') ∧
  (∀ db cls σ1,
     h _ GetEvaluatable σ = (inr cls, σ1) →
     h _ (CreateFrom cls db) σ1 = (inl e, σ') →
     fails_with (exec h (MDP.evaluate db) σ) e σ') ∧
  (∀ db cls σ1 ev σ2,
     h _ GetEvaluatable σ = (inr cls, σ1) →
     h _ (CreateFrom cls db) σ1 = (inr ev, σ2) →
     h _ (Evaluate ev) σ2 = (inl e, σ') →
     fails_with (exec h (MDP.evaluate db) σ) e σ') ∧
  (∀ db model_str,
     h _ (DbExtend db) σ = (inl e, σ') →
     fails_with (exec h (MDP.extend db model_str) σ) e σ') ∧
  (∀ db model_str db2 σ1,
     h _ (DbExtend db) σ = (inr db2, σ1) →
     h _ (PrologString model_str) σ1 = (inl e, σ') →
     fails_with (exec h (MDP.extend db model_str) σ) e σ') ∧
  (∀ db model_str db2 σ1 p σ2,
     h _ (DbExtend db) σ = (inr db2, σ1) →
     h _ (PrologString model_str) σ1 = (inr p, σ2) →
     h _ (Statements p) σ2 = (inl e, σ') →
     fails_with (exec h (MDP.extend db model_str) σ) e σ') ∧
  (∀ db model_str db2 σ1 p σ2 pre statement post σ3 db2' σ4,
     h _ (DbExtend db) σ = (inr db2, σ1) →
     h _ (PrologString model_str) σ1 = (inr p, σ2) →
     h _ (Statements p) σ2 = (inr (pre ++ statement :: post), σ3) →
     result (exec h (MDP.add_statements db2 pre) σ3) = Returned db2' →
     final (exec h (MDP.add_statements db2 pre) σ3) = σ4 →
     h _ (IAdd db2' statement) σ4 = (inl e, σ') →
     fails_with (exec h (MDP.extend db model_str) σ) e σ') ∧
  (∀ db queries evidence,
     h _ (GroundAll db queries
            match evidence with None => [] | Some evidence => evidence end) σ
     = (inl e, σ') →
     fails_with (exec h (MDP.query (inr db) queries evidence) σ) e σ') ∧
  (∀ db queries evidence lf σ1,
     h _ (GroundAll db queries
            match evidence with None => [] | Some evidence => evidence end) σ
     = (inr lf, σ1) →
     h _ GetEvaluatable σ1 = (inl e, σ') →
     fails_with (exec h (MDP.query (inr db) queries evidence) σ) e σ') ∧
  (∀ db queries evidence lf σ1 cls σ2,
     h _ (GroundAll db queries
            match evidence with None => [] | Some evidence => evidence end) σ
     = (inr lf, σ1) →
     h _ GetEvaluatable σ1 = (inr cls, σ2) →
     h _ (CreateFrom cls (FromFormula lf)) σ2 = (inl e, σ') →
     fails_with (exec h (MDP.query (inr db) queries evidence) σ) e σ') ∧
  (∀ db queries evidence lf σ1 cls σ2 ev σ3,
     h _ (GroundAll db queries
            match evidence with None => [] | Some evidence => evidence end) σ
     = (inr lf, σ1) →
     h _ GetEvaluatable σ1 = (inr cls, σ2) →
     h _ (CreateFrom cls (FromFormula lf)) σ2 = (inr ev, σ3) →
     h _ (Evaluate ev) σ3 = (inl e, σ') →
     fails_with (exec h (MDP.query (inr db) queries evidence) σ) e σ') ∧
  (∀ model_str queries evidence,
     h _ (PrologString model_str) σ = (inl e, σ') →
     fails_with (exec h (MDP.query (inl model_str) queries evidence) σ) e σ') ∧
  (∀ model_str queries evidence p σ1,
     h _ (PrologString model_str) σ = (inr p, σ1) →
     h _ (Prepare p) σ1 = (inl e, σ') →
     fails_with (exec h (MDP.query (inl model_str) queries evidence) σ) e σ') ∧
  (∀ model_str queries evidence p σ1 db σ2,
     h _ (PrologString model_str) σ = (inr p, σ1) →
     h _ (Prepare p) σ1 = (inr db, σ2) →
     h _ (GroundAll db queries
            match evidence with None => [] | Some evidence => evidence end) σ2
     = (inl e, σ') →
     fails_with (exec h (MDP.query (inl model_str) queries evidence) σ) e σ') ∧
  (∀ model_str queries evidence p σ1 db σ2 lf σ3,
     h _ (PrologString model_str) σ = (inr p, σ1) →
     h _ (Prepare p) σ1 = (inr db, σ2) →
     h _ (GroundAll db queries
            match evidence with None => [] | Some evidence => evidence end) σ2
     = (inr lf, σ3) →
     h _ GetEvaluatable σ3 = (inl e, σ') →
     fails_with (exec h (MDP.query (inl model_str) queries evidence) σ) e σ') ∧
  (∀ model_str queries evidence p σ1 db σ2 lf σ3 cls σ4,
     h _ (PrologString model_str) σ = (inr p, σ1) →
     h _ (Prepare p) σ1 = (inr db, σ2) →
     h _ (GroundAll db queries
            match evidence with None => [] | Some evidence => evidence end) σ2
     = (inr lf, σ3) →
     h _ GetEvaluatable σ3 = (inr cls, σ4) →
     h _ (CreateFrom cls (FromFormula lf)) σ4 = (inl e, σ') →
     fails_with (exec h (MDP.query (inl model_str) queries evidence) σ) e σ') ∧
  (∀ model_str queries evidence p σ1 db σ2 lf σ3 cls σ4 ev σ5,
     h _ (PrologString model_str) σ = (inr p, σ1) →
     h _ (Prepare p) σ1 = (inr db, σ2) →
     h _ (GroundAll db queries
            match evidence with None => [] | Some evidence => evidence end) σ2
     = (inr lf, σ3) →
     h _ GetEvaluatable σ3 = (inr cls, σ4) →
     h _ (CreateFrom cls (FromFormula lf)) σ4 = (inr ev, σ5) →
     h _ (Evaluate ev) σ5 = (inl e, σ') →
     fails_with (exec h (MDP.query (inl model_str) queries evidence) σ) e σ') ∧
  (∀ model_str,
     h _ (PrologString model_str) σ = (inl e, σ') →
     fails_with (exec h (Intro.run model_str) σ) e σ') ∧
  (∀ model_str model σ1,
     h _ (PrologString model_str) σ = (inr model, σ1) →
     h _ GetEvaluatable σ1 = (inl e, σ') →
     fails_with (exec h (Intro.run model_str) σ) e σ') ∧
  (∀ model_str model σ1 cls σ2,
     h _ (PrologString model_str) σ = (inr model, σ1) →
     h _ GetEvaluatable σ1 = (inr cls, σ2) →
     h _ (CreateFrom cls (FromProgram model)) σ2 = (inl e, σ') →
     fails_with (exec h (Intro.run model_str) σ) e σ') ∧
  (∀ model_str model σ1 cls σ2 ev σ3,
     h _ (PrologString model_str) σ = (inr model, σ1) →
     h _ GetEvaluatable σ1 = (inr cls, σ2) →
     h _ (CreateFrom cls (FromProgram model)) σ2 = (inr ev, σ3) →
     h _ (Evaluate ev) σ3 = (inl e, σ') →
     fails_with (exec h (Intro.run model_str) σ) e σ') ∧
  (∀ model_str,
     h _ (PrologString model_str) σ = (inl e, σ') →
     fails_with (exec h (MDP.run model_str) σ) e σ') ∧
  (∀ model_str p σ1,
     h _ (PrologString model_str) σ = (inr p, σ1) →
     h _ (Prepare p) σ1 = (inl e, σ') →
     fails_with (exec h (MDP.run model_str) σ) e σ') ∧
  (∀ model_str p σ1 db σ2,
     h _ (PrologString model_str) σ = (inr p, σ1) →
     h _ (Prepare p) σ1 = (inr db, σ2) →
     h _ GetEvaluatable σ2 = (inl e, σ') →
     fails_with (exec h (MDP.run model_str) σ) e σ') ∧
  (∀ model_str p σ1 db σ2 cls σ3,
     h _ (PrologString model_str) σ = (inr p, σ1) →
     h _ (Prepare p) σ1 = (inr db, σ2) →
     h _ GetEvaluatable σ2 = (inr cls, σ3) →
     h _ (CreateFrom cls (FromDb db)) σ3 = (inl e, σ') →
     fails_with (exec h (MDP.run model_str) σ) e σ') ∧
  (∀ model_str p σ1 db σ2 cls σ3 ev σ4,
     h _ (PrologString model_str) σ = (inr p, σ1) →
     h _ (Prepare p) σ1 = (inr db, σ2) →
     h _ GetEvaluatable σ2 = (inr cls, σ3) →
     h _ (CreateFrom cls (FromDb db)) σ3 = (inr ev, σ4) →
     h _ (Evaluate ev) σ4 = (inl e, σ') →
     fails_with (exec h (MDP.run model_str) σ) e σ').
Proof.
  repeat match goal with |- _ ∧ _ => split end;
    try (intros; unfold_helpers; cbn [exec api_of];
         repeat match goal with
                | H : h _ _ _ = _ |- _ => rewrite H; clear H
                end;
         done).
  intros * H1 H2 H3 Hres Hfin Hst. unfold_helpers. cbn [exec api_of].
  rewrite H1, H2, H3. do 3 apply fails_with_called.
  by eapply add_statements_raise.
Qed.

(** C3 on a text the parser rejects, for [precompile], [extend] and the two
    [run] helpers, and on evidence that cannot hold, for [query]. *)
Lemma helpers_raise_engine_errors_witness :
  fails_with (exec Notebook.engine (MDP.precompile "0.5::") [])
    (ParseError "0.5::") [] ∧
  fails_with (exec Notebook.engine (Intro.run "0.5::") [])
    (ParseError "0.5::") [] ∧
  fails_with (exec Notebook.engine (MDP.run "0.5::") [])
    (ParseError "0.5::") [] ∧
  fails_with (exec Notebook.engine (MDP.extend 0 "0.5::")
                [ProbLog.Node None Notebook.m1_program])
    (ParseError "0.5::")
    [ProbLog.Node None Notebook.m1_program; ProbLog.Node (Some 0) []] ∧
  fails_with (exec Notebook.engine
                (MDP.query (inr 0) ["a"] (Some [("b", true); ("b", false)]))
                [ProbLog.Node None Notebook.m1_program])
    InconsistentEvidence [ProbLog.Node None Notebook.m1_program].
Proof.
  destruct (helpers_raise_engine_errors Notebook.engine [] []
              (ParseError "0.5::"))
    as (Hprecompile & _ & _ & _ & _ & _ & _ & _ & _ & _ & _ & _ & _
        & Hquery & _ & _ & _ & _ & _ & Hintro & _ & _ & _ & Hrun & _).
  destruct (helpers_raise_engine_errors Notebook.engine
              [ProbLog.Node None Notebook.m1_program]
              [ProbLog.Node None Notebook.m1_program; ProbLog.Node (Some 0) []]
              (ParseError "0.5::"))
    as (_ & _ & _ & _ & _ & _ & Hextend & _).
  destruct (helpers_raise_engine_errors Notebook.engine
              [ProbLog.Node None Notebook.m1_program]
              [ProbLog.Node None Notebook.m1_program]
              InconsistentEvidence)
    as (_ & _ & _ & _ & _ & _ & _ & _ & _ & _ & _ & _ & Hevidence & _).
  split; [by apply Hprecompile|]. split; [by apply Hintro|].
  split; [by apply Hrun|].
  split; [by eapply Hextend|]. by eapply Hevidence.
Defined.

(** ** C5: what [run] does with the mapping *)

(** C5, as the code has it.  When the library evaluates the program, the
    [run] of the introduction prints the mapping the library returned and
    returns nothing; the [run] of the MDP notebook returns that mapping to
    its caller and prints nothing. *)
Theorem run_prints_or_returns {S} (h : engine S) (σ : S) (model_str : string) :
  (∀ model σ1 cls σ2 e σ3 m σ4,
     h _ (PrologString model_str) σ = (inr model, σ1) →
     h _ GetEvaluatable σ1 = (inr cls, σ2) →
     h _ (CreateFrom cls (FromProgram model)) σ2 = (inr e, σ3) →
     h _ (Evaluate e) σ3 = (inr m, σ4) →
     result (exec h (Intro.run model_str) σ) = Returned tt ∧
     stdout (exec h (Intro.run model_str) σ) = [m]) ∧
  (∀ p σ1 db σ2 cls σ3 e σ4 m σ5,
     h _ (PrologString model_str) σ = (inr p, σ1) →
     h _ (Prepare p) σ1 = (inr db, σ2) →
     h _ GetEvaluatable σ2 = (inr cls, σ3) →
     h _ (CreateFrom cls (FromDb db)) σ3 = (inr e, σ4) →
     h _ (Evaluate e) σ4 = (inr m, σ5) →
     result (exec h (MDP.run model_str) σ) = Returned m ∧
     stdout (exec h (MDP.run model_str) σ) = []) ∧
  stdout (exec h (MDP.run model_str) σ) = [].
Proof.
  split; [|split].
  - intros * H1 H2 H3 H4. unfold_helpers. cbn [exec api_of].
    by rewrite H1, H2, H3, H4.
  - intros * H1 H2 H3 H4 H5. unfold_helpers. cbn [exec api_of].
    by rewrite H1, H2, H3, H4, H5.
  - unfold_helpers. cbn [exec api_of]. by repeat (next_call h; [done|]).
Qed.

(** C5 on the program of cell 7. *)
Lemma run_prints_or_returns_witness :
  ∃ m, stdout (exec Notebook.engine (Intro.run Notebook.m1) []) = [m] ∧
       result (exec Notebook.engine (MDP.run Notebook.m1) []) = Returned m.
Proof.
  eexists. split.
  - apply (proj1 (run_prints_or_returns Notebook.engine [] Notebook.m1)
             _ _ _ _ _ _ _ _ eq_refl eq_refl eq_refl eq_refl).
  - apply (proj1 (proj2 (run_prints_or_returns Notebook.engine [] Notebook.m1))
             _ _ _ _ _ _ _ _ _ _ eq_refl eq_refl eq_refl eq_refl eq_refl).
Defined.

(** C5 as stated fails for the [run] of the MDP notebook: on the program of
    cell 7 the evaluation succeeds and nothing is printed. *)
Lemma mdp_run_prints_nothing :
  ∃ m, result (exec Notebook.engine (MDP.run Notebook.m1) []) = Returned m ∧
       stdout (exec Notebook.engine (MDP.run Notebook.m1) []) = [] ∧
       stdout (exec Notebook.engine (MDP.run Notebook.m1) []) ≠ [m].
Proof. eexists. by vm_compute. Qed.

(** ** C8: a program text or its precompiled handle *)

(** C8.  [query] on a program text is [query] on the handle [precompile]
    returns for it: the two are the same program, so that against every
    engine they make the same calls, end in the same state and return the
    same mapping or raise the same error. *)
Theorem query_text_or_handle (model_str : string) (queries : list atom)
    (evidence : option (list (atom * bool))) :
  MDP.query (inl model_str) queries evidence
  = (db ← MDP.precompile model_str; MDP.query (inr db) queries evidence) ∧
  ∀ S (h : engine S) (σ : S),
    exec h (MDP.query (inl model_str) queries evidence) σ
    = exec h (db ← MDP.precompile model_str;
              MDP.query (inr db) queries evidence) σ.
Proof. done. Qed.

(** ** C9: the default evidence *)

(** C9.  Leaving the evidence out, passing [None] and passing the empty
    list are the same call to [query]. *)
Theorem query_evidence_default (model : string + handle) (queries : list atom) :
  MDP.query_default model queries = MDP.query model queries None ∧
  MDP.query model queries None = MDP.query model queries (Some []) ∧
  ∀ S (h : engine S) (σ : S),
    exec h (MDP.query_default model queries) σ
    = exec h (MDP.query model queries (Some [])) σ ∧
    exec h (MDP.query model queries None) σ
    = exec h (MDP.query model queries (Some [])) σ.
Proof. done. Qed.

(** ** C2: [extend] against the library's databases *)

Section Databases.

Import ProbLog.

Lemma contents_upto_fuel (σ : store) :
  well_formed σ →
  ∀ fuel fuel' db, db < fuel → db < fuel' →
    contents_upto fuel σ db = contents_upto fuel' σ db.
Proof.
  intros Hwf fuel. induction fuel as [|fuel IH]; intros fuel' db Hlt Hlt'.
  { lia. }
  destruct fuel' as [|fuel']; [lia|]. cbn.
  destruct (σ !! db) as [n|] eqn:Hdb; [|done].
  destruct (parent n) as [p|] eqn:Hp; [|done].
  f_equal. pose proof (Hwf db n p Hdb Hp). apply IH; lia.
Qed.

(** Allocating a database does not change what the others contain. *)
Lemma contents_alloc (σ : store) (x : node) (db : handle) :
  well_formed σ → db < length σ →
  contents (σ ++ [x]) db = contents σ db.
Proof.
  intros Hwf. unfold contents. generalize (S db) as fuel. intros fuel.
  revert db. induction fuel as [|fuel IH]; intros db Hlt; [done|].
  cbn. rewrite lookup_app_l by done.
  destruct (σ !! db) as [n|] eqn:Hdb; [|done].
  destruct (parent n) as [p|] eqn:Hp; [|done].
  f_equal. pose proof (Hwf db n p Hdb Hp). apply IH. lia.
Qed.

Lemma well_formed_alloc (σ : store) (db : handle) (statements : list statement) :
  well_formed σ → db < length σ →
  well_formed (σ ++ [Node (Some db) statements]).
Proof.
  intros Hwf Hlt d n p Hd Hp. destruct (decide (d < length σ)) as [Hin|Hout].
  - rewrite lookup_app_l in Hd by done. by eapply Hwf.
  - assert (d = length σ) as ->.
    { apply lookup_lt_Some in Hd. rewrite length_app in Hd. cbn in Hd. lia. }
    rewrite list_lookup_middle in Hd by done. simplify_eq. cbn in Hp.
    simplify_eq. lia.
Qed.

Lemma contents_layer (σ : store) (db : handle) (statements : list statement) :
  well_formed σ → db < length σ →
  contents (σ ++ [Node (Some db) statements]) (length σ)
  = contents σ db ++ statements.
Proof.
  intros Hwf Hlt. unfold contents at 1. cbn [contents_upto].
  rewrite list_lookup_middle by done. cbn [parent own]. f_equal.
  rewrite <-(contents_alloc σ (Node (Some db) statements) db Hwf Hlt).
  unfold contents. apply contents_upto_fuel; [|lia..].
  by apply well_formed_alloc.
Qed.

Variable parse : string → error + program.

(** The loop adds the statements to the database it started with, in
    order, and leaves every other database alone. *)
Lemma add_statements_problog (statements : list statement) :
  ∀ (σ : store) (db2 : handle) (n : node),
    σ !! db2 = Some n →
    result (exec (problog parse) (MDP.add_statements db2 statements) σ)
    = Returned db2 ∧
    final (exec (problog parse) (MDP.add_statements db2 statements) σ)
    = <[db2 := Node (parent n) (own n ++ statements)]> σ.
Proof.
  induction statements as [|st rest IH]; intros σ db2 n Hdb2.
  - cbn. split; [done|]. rewrite app_nil_r.
    destruct n. cbn. by rewrite list_insert_id.
  - cbn. unfold_helpers. cbn [exec api_of]. cbn [problog]. rewrite Hdb2.
    cbn [called result final].
    pose proof (lookup_lt_Some _ _ _ Hdb2) as Hlt.
    edestruct (IH (<[db2 := Node (parent n) (own n ++ [st])]> σ) db2) as [Hres Hfin].
    { by apply list_lookup_insert_eq. }
    split; [done|]. rewrite Hfin. cbn.
    by rewrite list_insert_insert_eq, <-app_assoc.
Qed.

Lemma extend_problog (σ : store) (db : handle) (model_str : string)
    (statements : list statement) :
  db < length σ → parse model_str = inr statements →
  result (exec (problog parse) (MDP.extend db model_str) σ)
  = Returned (length σ) ∧
  final (exec (problog parse) (MDP.extend db model_str) σ)
  = σ ++ [Node (Some db) statements].
Proof.
  intros Hlt Hparse. unfold_helpers. cbn [exec api_of]. cbn [problog].
  destruct (lookup_lt_is_Some_2 σ db Hlt) as [n Hn]. rewrite Hn, Hparse.
  cbn [called result final].
  edestruct (add_statements_problog statements
               (σ ++ [Node (Some db) []]) (length σ)) as [Hres Hfin].
  { by apply list_lookup_middle. }
  split; [done|]. rewrite Hfin. cbn.
  rewrite insert_app_r_alt by done. by rewrite Nat.sub_diag.
Qed.

End Databases.

(** C2.  For every database [db] and program text, [extend] returns a
    handle that did not exist before, different from [db], through which
    the statements of the text are visible on top of what [db] contains;
    [db] and every other existing database are left as they were. *)
Theorem extend_layers_new_handle (parse : string → error + program)
    (σ : ProbLog.store) (db : handle) (model_str : string)
    (statements : list statement) :
  ProbLog.well_formed σ → db < length σ → parse model_str = inr statements →
  ∃ db2 σ',
    result (exec (ProbLog.problog parse) (MDP.extend db model_str) σ)
    = Returned db2 ∧
    final (exec (ProbLog.problog parse) (MDP.extend db model_str) σ) = σ' ∧
    db2 ≠ db ∧ σ !! db2 = None ∧
    ProbLog.contents σ' db2 = ProbLog.contents σ db ++ statements ∧
    σ' !! db = σ !! db ∧ ProbLog.contents σ' db = ProbLog.contents σ db ∧
    (∀ d, d < length σ →
       σ' !! d = σ !! d ∧ ProbLog.contents σ' d = ProbLog.contents σ d) ∧
    ProbLog.well_formed σ'.
Proof.
  intros Hwf Hlt Hparse.
  destruct (extend_problog parse σ db model_str statements Hlt Hparse)
    as [Hres Hfin].
  exists (length σ), (σ ++ [ProbLog.Node (Some db) statements]).
  split; [done|]. split; [done|]. split; [lia|].
  split; [by apply lookup_ge_None_2|].
  split; [by apply contents_layer|].
  split; [by apply lookup_app_l|].
  split; [by apply contents_alloc|].
  split; [|by apply well_formed_alloc].
  intros d Hd. split; [by apply lookup_app_l|by apply contents_alloc].
Qed.

(** C2 on the database of cell 7's program, extended by cell 8's. *)
Lemma extend_layers_new_handle_witness :
  ∃ db2 σ',
    result (exec Notebook.engine (MDP.extend 0 Notebook.m2)
              [ProbLog.Node None Notebook.m1_program])
    = Returned db2 ∧
    final (exec Notebook.engine (MDP.extend 0 Notebook.m2)
             [ProbLog.Node None Notebook.m1_program]) = σ' ∧
    db2 ≠ 0 ∧
    [ProbLog.Node None Notebook.m1_program] !! db2 = None ∧
    ProbLog.contents σ' db2 = Notebook.m1_program ++ Notebook.m2_program ∧
    ProbLog.contents σ' 0 = Notebook.m1_program.
Proof.
  destruct (extend_layers_new_handle Notebook.parse
              [ProbLog.Node None Notebook.m1_program] 0 Notebook.m2
              Notebook.m2_program)
    as (db2 & σ' & Hres & Hfin & Hne & Hnew & Hlayer & _ & Hsame & _).
  - intros [|d] n p Hd Hp; cbn in Hd; by simplify_eq.
  - cbn. lia.
  - reflexivity.
  - exists db2, σ'. by repeat split.
Defined.

(** * The Monte Carlo estimates *)

Section Estimates.

Import Sampling.

Lemma times_true_cons (atom : string) (model_sample : sample) (result : list sample) :
  Z.of_nat (times_true atom (model_sample :: result))
  = (hit model_sample atom + Z.of_nat (times_true atom result))%Z.
Proof.
  unfold times_true, hit. rewrite filter_cons.
  destruct (decide (model_sample !! atom = Some true)) as [->|Hne].
  - cbn [length]. lia.
  - destruct (model_sample !! atom) as [[]|]; [done|lia..].
Qed.

Lemma times_true_length (atom : string) (result : list sample) :
  times_true atom result ≤ length result.
Proof. apply length_filter. Qed.

(** The inner loop: no key error when the sample's atoms are counted, and
    every counter grows by what the sample says of its atom. *)
Lemma add_sample_spec (count : gmap string Z) (model_sample : sample) :
  dom model_sample ⊆ dom count →
  ∃ count', add_sample count model_sample = inr count' ∧
    ∀ atom, count' !! atom = (λ c, c + hit model_sample atom)%Z <$> count !! atom.
Proof.
  unfold add_sample.
  apply (map_fold_weak_ind (λ r (m : sample),
    dom m ⊆ dom count →
    ∃ count', r = inr count' ∧
      ∀ atom, count' !! atom = (λ c, c + hit m atom)%Z <$> count !! atom)).
  - intros _. exists count. split; [done|]. intros atom. unfold hit.
    rewrite lookup_empty. destruct (count !! atom); [|done].
    cbn. f_equal. lia.
  - intros atom value m r Hfresh IH Hdom.
    destruct IH as (count' & -> & Hcount').
    { etrans; [|exact Hdom]. rewrite dom_insert_L. set_solver. }
    assert (atom ∈ dom count) as [c Hc]%elem_of_dom.
    { apply Hdom. rewrite dom_insert_L. set_solver. }
    unfold add_item. rewrite Hcount', Hc. cbn. eexists. split; [done|].
    intros atom'. unfold hit in *. destruct (decide (atom = atom')) as [<-|Hne].
    + rewrite !lookup_insert_eq, Hc, Hfresh. cbn. f_equal.
      destruct value; cbn; lia.
    + rewrite !lookup_insert_ne by done. apply Hcount'.
Qed.

(** The outer loop. *)
Lemma add_samples_spec (result : list sample) :
  ∀ count : gmap string Z,
    Forall (λ model_sample : sample, dom model_sample = dom count) result →
    ∃ count', add_samples count result = inr count' ∧
      ∀ atom, count' !! atom
              = (λ c, c + Z.of_nat (times_true atom result))%Z <$> count !! atom.
Proof.
  induction result as [|model_sample rest IH]; intros count Hdom.
  - exists count. split; [done|]. intros atom.
    destruct (count !! atom); [|done]. cbn. f_equal. lia.
  - apply Forall_cons in Hdom as [Hfirst Hrest]. cbn [add_samples].
    destruct (add_sample_spec count model_sample) as (count1 & -> & Hcount1).
    { by rewrite Hfirst. }
    assert (dom count1 = dom count) as Hdom1.
    { apply set_eq. intros atom. rewrite !elem_of_dom, Hcount1.
      by rewrite fmap_is_Some. }
    destruct (IH count1) as (count' & -> & Hcount').
    { eapply Forall_impl; [exact Hrest|]. intros s Hs. cbn in Hs. congruence. }
    exists count'. split; [done|]. intros atom.
    rewrite Hcount', Hcount1, times_true_cons.
    destruct (count !! atom); [|done]. cbn. f_equal. lia.
Qed.

Lemma true_div_frequency (k n : nat) :
  k ≤ n → 0 < n →
  (0 <= true_div (Z.of_nat k) n)%Q ∧ (true_div (Z.of_nat k) n <= 1)%Q.
Proof.
  intros Hle Hpos. unfold true_div.
  assert (0 < inject_Z (Z.of_nat n))%Q as Hn.
  { change 0%Q with (inject_Z 0). rewrite <-Zlt_Qlt. lia. }
  split.
  - apply Qle_shift_div_l; [done|]. rewrite Qmult_0_l.
    change 0%Q with (inject_Z 0). rewrite <-Zle_Qle. lia.
  - apply Qle_shift_div_r; [done|]. rewrite Qmult_1_l.
    rewrite <-Zle_Qle. lia.
Qed.

End Estimates.

(** ** C10: the estimates are relative frequencies *)

(** C10.  On a non-empty list of samples that all assign the atoms of the
    first one, the estimation code raises no error and returns a dictionary
    over those atoms; the estimate of an atom is the number of samples in
    which it is true divided by the number of samples, and lies in [0,1]. *)
Theorem estimates_are_frequencies (result : list Sampling.sample)
    (first : Sampling.sample) :
  head result = Some first →
  Forall (λ model_sample : Sampling.sample, dom model_sample = dom first) result →
  ∃ estimates : gmap string Q,
    Sampling.estimates result = inr estimates ∧
    dom estimates = dom first ∧
    ∀ atom, atom ∈ dom first →
      estimates !! atom
      = Some (Sampling.true_div (Z.of_nat (Sampling.times_true atom result))
                (length result)) ∧
      (0 <= Sampling.true_div (Z.of_nat (Sampling.times_true atom result))
              (length result))%Q ∧
      (Sampling.true_div (Z.of_nat (Sampling.times_true atom result))
         (length result) <= 1)%Q.
Proof.
  intros Hhead Hdom. destruct result as [|first' rest]; [done|].
  cbn in Hhead. simplify_eq. unfold Sampling.estimates.
  destruct (add_samples_spec (first :: rest) (Sampling.zero_counts first))
    as (count & -> & Hcount).
  { eapply Forall_impl; [exact Hdom|]. intros s Hs. cbn in Hs.
    unfold Sampling.zero_counts. by rewrite dom_fmap_L. }
  eexists. split; [done|]. split.
  - rewrite dom_fmap_L. apply set_eq. intros atom.
    rewrite !elem_of_dom, Hcount. unfold Sampling.zero_counts.
    by rewrite fmap_is_Some, lookup_fmap, fmap_is_Some.
  - intros atom [v Hv]%elem_of_dom. split.
    + rewrite lookup_fmap, Hcount. unfold Sampling.zero_counts.
      rewrite lookup_fmap, Hv. cbn. do 2 f_equal.
    + apply true_div_frequency; [apply times_true_length|cbn; lia].
Qed.

(** C10 on three samples of the two facts [a] and [b]. *)
Lemma estimates_are_frequencies_witness :
  ∃ estimates : gmap string Q,
    Sampling.estimates
      [ {[ "a" := true; "b" := false ]};
        {[ "a" := true; "b" := true ]};
        {[ "a" := false; "b" := false ]} ]
    = inr estimates ∧
    estimates !! "a" = Some (Sampling.true_div 2 3) ∧
    estimates !! "b" = Some (Sampling.true_div 1 3).
Proof.
  destruct (estimates_are_frequencies
              [ {[ "a" := true; "b" := false ]};
                {[ "a" := true; "b" := true ]};
                {[ "a" := false; "b" := false ]} ]
              {[ "a" := true; "b" := false ]})
    as (estimates & Hrun & _ & Hfreq).
  - reflexivity.
  - repeat constructor; by vm_compute.
  - exists estimates. split; [done|]. split.
    + apply (Hfreq "a"). by vm_compute.
    + apply (Hfreq "b"). by vm_compute.
Defined.

(** * Possible worlds and weighted model counting *)

Section Worlds.

Import ProbLog.

Lemma probability_range (p : probability) :
  (0 <= prob_value p)%Q ∧ (prob_value p <= 1)%Q.
Proof.
  destruct p as [q Hq]. cbn. apply andb_prop in Hq as [H0 H1].
  by rewrite !Qle_bool_iff in *.
Qed.

Lemma Qsum_app (l1 l2 : list Q) : (Qsum (l1 ++ l2) == Qsum l1 + Qsum l2)%Q.
Proof.
  induction l1 as [|q l1 IH]; cbn.
  - by rewrite Qplus_0_l.
  - change (foldr Qplus 0%Q (l1 ++ l2)) with (Qsum (l1 ++ l2)).
    change (foldr Qplus 0%Q l1) with (Qsum l1).
    rewrite IH. by rewrite Qplus_assoc.
Qed.

Lemma Qsum_scale {A} (k : Q) (f : A → Q) (l : list A) :
  (Qsum ((λ x, k * f x) <$> l) == k * Qsum (f <$> l))%Q.
Proof.
  induction l as [|x l IH]; cbn.
  - by rewrite Qmult_0_r.
  - change (foldr Qplus 0%Q ((λ x, k * f x)%Q <$> l))
      with (Qsum ((λ x, k * f x)%Q <$> l)).
    change (foldr Qplus 0%Q (f <$> l)) with (Qsum (f <$> l)).
    rewrite IH. by rewrite Qmult_plus_distr_r.
Qed.

Lemma Qsum_fmap_le {A} (f g : A → Q) (l : list A) :
  (∀ x, f x <= g x)%Q → (Qsum (f <$> l) <= Qsum (g <$> l))%Q.
Proof.
  intros Hle. induction l as [|x l IH]; cbn; [apply Qle_refl|].
  by apply Qplus_le_compat.
Qed.

Lemma Qsum_fmap_nonneg {A} (f : A → Q) (l : list A) :
  (∀ x, 0 <= f x)%Q → (0 <= Qsum (f <$> l))%Q.
Proof.
  intros Hle. induction l as [|x l IH]; cbn; [apply Qle_refl|].
  change 0%Q with (0 + 0)%Q. by apply Qplus_le_compat.
Qed.

Lemma world_probability_nonneg (cs : list clause) (w : world) :
  (0 <= world_probability cs w)%Q.
Proof.
  revert w. induction cs as [|c cs IH]; intros w; cbn; [done|].
  destruct (annotation c) as [p|]; [|apply IH].
  destruct w as [|b w]; [done|].
  destruct (probability_range p) as [H0 H1].
  apply Qmult_le_0_compat; [|apply IH].
  destruct b; [done|]. by apply ->Qle_minus_iff.
Qed.

(** A possible world gives a truth value to every probabilistic fact, and
    every assignment is a possible world. *)
Lemma all_worlds_complete (cs : list clause) :
  Forall (λ w : world, length w = facts cs) (all_worlds cs) ∧
  length (all_worlds cs) = 2 ^ facts cs.
Proof.
  unfold facts. induction cs as [|c cs [IHw IHn]]; cbn.
  - split; [by repeat constructor|done].
  - destruct (annotation c) as [p|]; [|done]. cbn. split.
    + apply Forall_app. split; apply Forall_fmap;
        (eapply Forall_impl; [exact IHw|]); intros w Hw; cbn; by rewrite Hw.
    + rewrite length_app, !length_fmap, IHn. lia.
Qed.

(** The probabilities of all possible worlds add up to one. *)
Lemma all_worlds_total (cs : list clause) :
  (Qsum (world_probability cs <$> all_worlds cs) == 1)%Q.
Proof.
  induction cs as [|c cs IH]; cbn.
  - by rewrite Qplus_0_r.
  - destruct (annotation c) as [p|] eqn:Hp; [|done].
    rewrite fmap_app, <-!list_fmap_compose, Qsum_app.
    rewrite (Qsum_scale (prob_value p) (world_probability cs)).
    rewrite (Qsum_scale (1 - prob_value p) (world_probability cs)).
    rewrite IH. ring.
Qed.

Lemma mass_nonneg (cs : list clause) (φ : list clause → bool) :
  (0 <= mass cs φ)%Q.
Proof.
  apply Qsum_fmap_nonneg. intros w.
  destruct (φ _); [apply world_probability_nonneg|done].
Qed.

Lemma mass_mono (cs : list clause) (φ ψ : list clause → bool) :
  (∀ rules, φ rules = true → ψ rules = true) → (mass cs φ <= mass cs ψ)%Q.
Proof.
  intros Himp. apply Qsum_fmap_le. intros w.
  destruct (φ (in_force cs w)) eqn:Hφ.
  - rewrite (Himp _ Hφ). apply Qle_refl.
  - destruct (ψ _); [apply world_probability_nonneg|done].
Qed.

(** The mass of every event is at most the total mass. *)
Lemma mass_le_1 (cs : list clause) (φ : list clause → bool) : (mass cs φ <= 1)%Q.
Proof.
  rewrite <-(all_worlds_total cs). apply Qsum_fmap_le. intros w.
  destruct (φ _); [apply Qle_refl|apply world_probability_nonneg].
Qed.

(** What an evaluation returns are conditional probabilities. *)
Lemma wmc_probabilities (lf : formula) (m : mapping) :
  wmc lf = inr m → probabilities m.
Proof.
  unfold wmc.
  destruct (Qeq_bool _ 0) eqn:Hz; [done|]. intros [= <-].
  apply Qeq_bool_neq in Hz.
  assert (0 < mass (f_clauses lf) (consistent (f_evidence lf)))%Q as Hpos.
  { pose proof (mass_nonneg (f_clauses lf) (consistent (f_evidence lf))) as Hnn.
    apply Qle_lteq in Hnn as [Hlt|Heq]; [done|].
    destruct Hz. by symmetry. }
  apply Forall_fmap, Forall_true. intros q. cbn. split.
  - apply Qle_shift_div_l; [done|]. rewrite Qmult_0_l. apply mass_nonneg.
  - apply Qle_shift_div_r; [done|]. rewrite Qmult_1_l. apply mass_mono.
    intros rules. by intros [_ ?]%andb_prop.
Qed.

(** The keys of an evaluation are the queried terms. *)
Lemma wmc_keys (lf : formula) (m : mapping) :
  wmc lf = inr m → m.*1 = f_queries lf.
Proof.
  unfold wmc. destruct (Qeq_bool _ 0); [done|]. intros [= <-].
  rewrite <-list_fmap_compose. apply list_fmap_id.
Qed.

(** A prepared program shows its statements. *)
Lemma contents_root (σ : store) (p : program) :
  contents (σ ++ [Node None p]) (length σ) = p.
Proof. unfold contents. cbn. by rewrite list_lookup_middle. Qed.

End Worlds.

(** ** The model against the outputs recorded in the notebook

    The recorded values are the floating-point numbers nearest to these. *)

Example hello_output :
  ProbLog.wmc (ProbLog.ground Notebook.hello_program)
  = inr [("r", Qmake 20000 100000)].
Proof. by vm_compute. Qed.

Example m5_output :
  ∃ r, ProbLog.wmc (ProbLog.ground Notebook.m5_program) = inr [("r", r)] ∧
       (r == 0.6)%Q.
Proof. eexists. split; by vm_compute. Qed.

Example m6_output :
  ∃ r, ProbLog.wmc (ProbLog.ground Notebook.m6_program) = inr [("r", r)] ∧
       (r == 0.1)%Q.
Proof. eexists. split; by vm_compute. Qed.

Example model_output :
  ∃ a b c, ProbLog.wmc (ProbLog.ground Notebook.model_program)
           = inr [("a", a); ("b", b); ("c", c)] ∧
           (a == 0.8)%Q ∧ (b == 0.2)%Q ∧ (c == 0.16)%Q.
Proof. eexists _, _, _. split; by vm_compute. Qed.

(** ** C4: the values of an evaluation are probabilities *)

(** Case analysis on what the library does at each call of a helper. *)
Ltac library_cases :=
  unfold_helpers; cbn [exec api_of ProbLog.problog]; unfold ProbLog.checked;
  repeat (case_match; simplify_eq;
          cbn [called raised printed result stdout] in *).

(** What an evaluation returns: probabilities, for the queried terms. *)
Lemma wmc_mapping (lf : formula) (m : mapping) :
  ProbLog.wmc lf = inr m →
  ProbLog.probabilities m ∧ ∀ a, a ∈ m.*1 ↔ a ∈ f_queries lf.
Proof.
  intros Hm. split; [by eapply wmc_probabilities|].
  intros a. by rewrite (wmc_keys lf m Hm).
Qed.

(** C4.  Whenever the evaluation succeeds, what [evaluate], [query] and the
    [run] of the MDP notebook return, and what the [run] of the introduction
    prints, is a mapping from the queried terms to probabilities: its keys
    are the queried terms (for [query] the ones it is given, otherwise the
    ones the program declares), and all its values lie in [0,1]. *)
Theorem evaluation_probabilities (parse : string → error + program)
    (σ : ProbLog.store) :
  (∀ db m,
     result (exec (ProbLog.problog parse) (MDP.evaluate db) σ) = Returned m →
     ProbLog.probabilities m ∧
     ∀ a, a ∈ m.*1 ↔ a ∈ ProbLog.queried σ db) ∧
  (∀ model queries evidence m,
     result (exec (ProbLog.problog parse) (MDP.query model queries evidence) σ)
     = Returned m →
     ProbLog.probabilities m ∧
     ∀ a, a ∈ m.*1 ↔ a ∈ queries) ∧
  (∀ model_str m,
     result (exec (ProbLog.problog parse) (MDP.run model_str) σ) = Returned m →
     ProbLog.probabilities m ∧
     ∃ p, parse model_str = inr p ∧
          ∀ a, a ∈ m.*1 ↔ a ∈ ProbLog.queries_of p) ∧
  (∀ model_str m,
     m ∈ stdout (exec (ProbLog.problog parse) (Intro.run model_str) σ) →
     ProbLog.probabilities m ∧
     ∃ p, parse model_str = inr p ∧
          ∀ a, a ∈ m.*1 ↔ a ∈ ProbLog.queries_of p).
Proof.
  split; [|split; [|split]].
  - intros db m. destruct db; library_cases; intros; simplify_eq;
      by eapply (wmc_mapping (Formula _ _ _)) || by eapply wmc_mapping.
  - intros [model_str|db] queries evidence m; library_cases; intros;
      simplify_eq; by eapply (wmc_mapping (Formula _ queries _)).
  - intros model_str m. unfold_helpers.
    cbn [exec api_of ProbLog.problog]. unfold ProbLog.checked.
    destruct (parse model_str) as [e|p]; [done|].
    rewrite list_lookup_middle by done. cbn [compiled].
    rewrite contents_root.
    destruct (ProbLog.wmc (ProbLog.ground p)) as [e|m'] eqn:Hm; [done|].
    cbn. intros [= <-]. destruct (wmc_mapping _ _ Hm) as [Hp Hk].
    split; [done|]. by exists p.
  - intros model_str m. unfold_helpers.
    cbn [exec api_of ProbLog.problog].
    destruct (parse model_str) as [e|p]; [by intros ?%elem_of_nil|].
    cbn [compiled].
    destruct (ProbLog.wmc (ProbLog.ground p)) as [e|m'] eqn:Hm;
      [by intros ?%elem_of_nil|].
    cbn. intros ->%list_elem_of_singleton.
    destruct (wmc_mapping _ _ Hm) as [Hp Hk].
    split; [done|]. by exists p.
Qed.

(** C4 on the programs of cells 10 and 4, the latter with evidence. *)
Lemma evaluation_probabilities_witness :
  ∃ m m',
    result (exec Notebook.engine (MDP.run Notebook.m4) []) = Returned m ∧
    ProbLog.probabilities m ∧
    (∀ a, a ∈ m.*1 ↔ a ∈ ["w1"; "w2"; "w3"; "w4"]) ∧
    stdout (exec Notebook.engine (Intro.run Notebook.hello) []) = [m'] ∧
    ProbLog.probabilities m' ∧
    (∀ a, a ∈ m'.*1 ↔ a ∈ ["r"]).
Proof.
  destruct (result (exec Notebook.engine (MDP.run Notebook.m4) []))
    as [m|e] eqn:Hm; [|by vm_compute in Hm].
  destruct (stdout (exec Notebook.engine (Intro.run Notebook.hello) []))
    as [|m' [|? ?]] eqn:Hm'; [by vm_compute in Hm'| |by vm_compute in Hm'].
  destruct (evaluation_probabilities Notebook.parse [])
    as (_ & _ & Hrun & Hprint).
  destruct (Hrun Notebook.m4 m Hm) as (Hp & p & Hparse & Hk).
  destruct (Hprint Notebook.hello m') as (Hp' & p' & Hparse' & Hk').
  { unfold Notebook.engine in Hm'. rewrite Hm'. left. }
  exists m, m'. vm_compute in Hparse, Hparse'. simplify_eq.
  split; [done|]. split; [done|]. split; [exact Hk|].
  split; [done|]. split; [done|exact Hk'].
Defined.

(** ** C7: the joint distribution of cell 10 *)

(** C7.  The probabilities of the possible worlds of a program add up to
    one, each being the product of the success probabilities of its true
    facts and the failure probabilities of its false ones.  For [m4], with
    the facts [0.65::a] and [0.10::b], the worlds are the four truth
    assignments, and the evaluation gives [w1], [w2], [w3] and [w4] the
    probabilities 0.65*0.10, 0.65*0.90, 0.35*0.10 and 0.35*0.90, which add
    up to one. *)
Theorem m4_joint_distribution :
  (∀ cs, Forall (λ w : list bool, length w = ProbLog.facts cs)
           (ProbLog.all_worlds cs) ∧
         length (ProbLog.all_worlds cs) = 2 ^ ProbLog.facts cs ∧
         (ProbLog.Qsum (ProbLog.world_probability cs <$> ProbLog.all_worlds cs)
          == 1)%Q) ∧
  (let cs := ProbLog.clauses_of Notebook.m4_program in
   ProbLog.all_worlds cs
   = [[true; true]; [true; false]; [false; true]; [false; false]] ∧
   (ProbLog.world_probability cs [true; true] == 0.65 * 0.10)%Q ∧
   (ProbLog.world_probability cs [true; false] == 0.65 * (1 - 0.10))%Q ∧
   (ProbLog.world_probability cs [false; true] == (1 - 0.65) * 0.10)%Q ∧
   (ProbLog.world_probability cs [false; false] == (1 - 0.65) * (1 - 0.10))%Q) ∧
  ∃ p1 p2 p3 p4 : Q,
    ProbLog.wmc (ProbLog.ground Notebook.m4_program)
    = inr [("w1", p1); ("w2", p2); ("w3", p3); ("w4", p4)] ∧
    stdout (exec Notebook.engine (Intro.run Notebook.m4) [])
    = [[("w1", p1); ("w2", p2); ("w3", p3); ("w4", p4)]] ∧
    (p1 == 0.65 * 0.10)%Q ∧ (p2 == 0.65 * 0.90)%Q ∧
    (p3 == 0.35 * 0.10)%Q ∧ (p4 == 0.35 * 0.90)%Q ∧
    (p1 + p2 + p3 + p4 == 1)%Q.
Proof.
  split.
  { intros cs. destruct (all_worlds_complete cs) as [Hw Hn].
    split; [done|]. split; [done|]. apply all_worlds_total. }
  split.
  - by vm_compute.
  - eexists _, _, _, _. split; [by vm_compute|]. by vm_compute.
Qed.

(** * More on the Monte Carlo estimation: when it fails, what it returns *)

Section EstimatesBehaviour.

Import Sampling.

(** The inner loop, whatever the sample: it either counts every atom of the
    sample, or stops at an atom that has no counter. *)
Lemma add_sample_cases (count : gmap string Z) (model_sample : sample) :
  match add_sample count model_sample with
  | inr count' =>
      dom model_sample ⊆ dom count ∧
      ∀ atom, count' !! atom
              = (λ c, c + hit model_sample atom)%Z <$> count !! atom
  | inl e =>
      ∃ atom, e = KeyError atom ∧ atom ∈ dom model_sample ∧ atom ∉ dom count
  end.
Proof.
  unfold add_sample.
  apply (map_fold_weak_ind (λ r (m : sample),
    match r with
    | inr count' =>
        dom m ⊆ dom count ∧
        ∀ atom, count' !! atom = (λ c, c + hit m atom)%Z <$> count !! atom
    | inl e => ∃ atom, e = KeyError atom ∧ atom ∈ dom m ∧ atom ∉ dom count
    end)).
  - split; [set_solver|]. intros atom. unfold hit. rewrite lookup_empty.
    destruct (count !! atom); [|done]. cbn. f_equal. lia.
  - intros atom value m [e|count'] Hfresh IH.
    { destruct IH as (atom' & -> & Hin & Hout). exists atom'.
      split; [done|]. split; [|done]. rewrite dom_insert_L. set_solver. }
    destruct IH as [Hdom Hcount']. unfold add_item. rewrite Hcount'.
    destruct (count !! atom) as [c|] eqn:Hc; cbn.
    + split.
      { rewrite dom_insert_L. apply union_subseteq. split; [|done].
        apply singleton_subseteq_l. by eapply elem_of_dom_2. }
      intros atom'. unfold hit in *.
      destruct (decide (atom = atom')) as [<-|Hne].
      * rewrite !lookup_insert_eq, Hc, Hfresh. cbn. f_equal.
        destruct value; cbn; lia.
      * rewrite !lookup_insert_ne by done. apply Hcount'.
    + exists atom. split; [done|]. split.
      * rewrite dom_insert_L. set_solver.
      * by apply not_elem_of_dom.
Qed.

(** The outer loop, whatever the samples. *)
Lemma add_samples_cases (result : list sample) :
  ∀ count : gmap string Z,
    match add_samples count result with
    | inr count' =>
        Forall (λ model_sample : sample, dom model_sample ⊆ dom count) result ∧
        ∀ atom, count' !! atom
                = (λ c, c + Z.of_nat (times_true atom result))%Z <$> count !! atom
    | inl e =>
        ∃ atom (model_sample : sample),
          e = KeyError atom ∧ model_sample ∈ result ∧
          atom ∈ dom model_sample ∧ atom ∉ dom count
    end.
Proof.
  induction result as [|model_sample rest IH]; intros count.
  - cbn. split; [done|]. intros atom.
    destruct (count !! atom); [|done]. cbn. f_equal. lia.
  - cbn [add_samples]. pose proof (add_sample_cases count model_sample) as H1.
    destruct (add_sample count model_sample) as [e|count1].
    { destruct H1 as (atom & -> & Hin & Hout). exists atom, model_sample.
      split; [done|]. split; [left|done]. }
    destruct H1 as [Hsub Hcount1].
    assert (dom count1 = dom count) as Hdom1.
    { apply set_eq. intros atom. rewrite !elem_of_dom, Hcount1.
      by rewrite fmap_is_Some. }
    specialize (IH count1). destruct (add_samples count1 rest) as [e|count'].
    + destruct IH as (atom & s & -> & Hs & Hin & Hout). exists atom, s.
      split; [done|]. split; [by right|]. split; [done|]. by rewrite <-Hdom1.
    + destruct IH as [Hrest Hcount']. split.
      * constructor; [done|]. eapply Forall_impl; [exact Hrest|].
        intros s Hs. cbn in Hs. by rewrite <-Hdom1.
      * intros atom. rewrite Hcount', Hcount1, times_true_cons.
        destruct (count !! atom); [|done]. cbn. f_equal. lia.
Qed.

(** Everything the estimation code can do. *)
Lemma estimates_cases (result : list sample) :
  match estimates result with
  | inr est =>
      ∃ first, head result = Some first ∧
        Forall (λ model_sample : sample, dom model_sample ⊆ dom first) result ∧
        dom est = dom first ∧
        ∀ atom, atom ∈ dom first →
          est !! atom
          = Some (true_div (Z.of_nat (times_true atom result)) (length result))
  | inl IndexError => result = []
  | inl (KeyError atom) =>
      ∃ first (model_sample : sample),
        head result = Some first ∧ model_sample ∈ result ∧
        atom ∈ dom model_sample ∧ atom ∉ dom first
  end.
Proof.
  destruct result as [|first rest]; [done|]. unfold estimates.
  pose proof (add_samples_cases (first :: rest) (zero_counts first)) as H.
  destruct (add_samples (zero_counts first) (first :: rest)) as [e|count].
  - destruct H as (atom & s & -> & Hs & Hin & Hout). exists first, s.
    split; [done|]. split; [done|]. split; [done|].
    unfold zero_counts in Hout. by rewrite dom_fmap_L in Hout.
  - destruct H as [Hsub Hcount]. unfold zero_counts in *.
    rewrite dom_fmap_L in Hsub. exists first. split; [done|]. split; [done|].
    split.
    + rewrite dom_fmap_L. apply set_eq. intros atom.
      rewrite !elem_of_dom, Hcount.
      by rewrite fmap_is_Some, lookup_fmap, fmap_is_Some.
    + intros atom [v Hv]%elem_of_dom.
      rewrite lookup_fmap, Hcount, lookup_fmap, Hv. cbn. do 2 f_equal.
Qed.

End EstimatesBehaviour.

(** X1.  The estimation code returns a dictionary exactly when there is at
    least one sample and no sample has an atom that the first one lacks. *)
Theorem estimates_succeed_iff (result : list Sampling.sample) :
  (∃ est, Sampling.estimates result = inr est) ↔
  ∃ first, head result = Some first ∧
    Forall (λ model_sample : Sampling.sample, dom model_sample ⊆ dom first)
      result.
Proof.
  pose proof (estimates_cases result) as Hcases. split.
  - intros [est Hest]. rewrite Hest in Hcases.
    destruct Hcases as (first & Hhead & Hsub & _). by exists first.
  - intros (first & Hhead & Hsub).
    destruct (Sampling.estimates result) as [[|atom]|est]; [..|by eexists].
    + by subst.
    + destruct Hcases as (first' & s & Hhead' & Hs & Hin & Hout).
      simplify_eq. rewrite Forall_forall in Hsub. set_solver.
Qed.

(** X2.  The errors of the estimation code: an index error on an empty list
    of samples and on nothing else, and a key error only for an atom that
    some sample has and the first sample lacks. *)
Theorem estimates_errors (result : list Sampling.sample)
    (e : Sampling.exception) :
  Sampling.estimates result = inl e →
  (e = Sampling.IndexError ∧ result = []) ∨
  (∃ atom first (model_sample : Sampling.sample),
     e = Sampling.KeyError atom ∧ head result = Some first ∧
     model_sample ∈ result ∧ atom ∈ dom model_sample ∧ atom ∉ dom first).
Proof.
  intros He. pose proof (estimates_cases result) as Hcases.
  rewrite He in Hcases. destruct e as [|atom]; [by left|right].
  destruct Hcases as (first & s & ?). by exists atom, first, s.
Qed.

Lemma estimates_errors_witness :
  Sampling.estimates [] = inl Sampling.IndexError ∧
  ∃ atom first (model_sample : Sampling.sample),
    Sampling.estimates [ {[ "a" := true ]}; {[ "a" := true; "b" := true ]} ]
    = inl (Sampling.KeyError atom) ∧
    head [ ({[ "a" := true ]} : Sampling.sample);
           {[ "a" := true; "b" := true ]} ] = Some first ∧
    atom ∈ dom model_sample ∧ atom ∉ dom first.
Proof.
  split; [done|].
  destruct (estimates_errors
              [ {[ "a" := true ]}; {[ "a" := true; "b" := true ]} ]
              (Sampling.KeyError "b"))
    as [[? _]|(atom & first & s & Hatom & Hhead & _ & Hin & Hout)].
  - by vm_compute.
  - done.
  - exists atom, first, s. by simplify_eq.
Defined.

(** X3.  When the estimation code succeeds, the estimate of every atom of
    the first sample is the number of samples in which the atom is true
    divided by the number of samples; a sample that does not mention the
    atom counts as one in which it is not true. *)
Theorem estimates_count_absent_as_false (result : list Sampling.sample)
    (est : gmap string Q) (first : Sampling.sample) (atom : string) :
  Sampling.estimates result = inr est →
  head result = Some first →
  atom ∈ dom first →
  est !! atom
  = Some (Sampling.true_div
            (Z.of_nat (length (filter
               (λ model_sample : Sampling.sample,
                  model_sample !! atom = Some true) result)))
            (length result)) ∧
  (∀ other, other ∉ dom first → est !! other = None).
Proof.
  intros Hest Hhead Hin. pose proof (estimates_cases result) as Hcases.
  rewrite Hest in Hcases.
  destruct Hcases as (first' & Hhead' & _ & Hdom & Hfreq). simplify_eq.
  split; [by apply Hfreq|]. intros other Hother.
  apply not_elem_of_dom. by rewrite Hdom.
Qed.

Lemma estimates_count_absent_as_false_witness :
  ∃ est : gmap string Q,
    Sampling.estimates [ {[ "a" := true; "b" := true ]}; {[ "a" := true ]} ]
    = inr est ∧
    est !! "b" = Some (Sampling.true_div 1 2).
Proof.
  destruct (Sampling.estimates
              [ {[ "a" := true; "b" := true ]}; {[ "a" := true ]} ])
    as [e|est] eqn:Hest; [by vm_compute in Hest|].
  exists est. split; [done|].
  apply (estimates_count_absent_as_false
           [ {[ "a" := true; "b" := true ]}; {[ "a" := true ]} ] est
           {[ "a" := true; "b" := true ]} "b" Hest); by vm_compute.
Defined.

Lemma estimates_succeed_iff_witness :
  ∃ est, Sampling.estimates
           [ {[ "a" := true; "b" := false ]}; {[ "b" := true ]} ] = inr est.
Proof.
  apply (proj2 (estimates_succeed_iff
                  [ {[ "a" := true; "b" := false ]}; {[ "b" := true ]} ])).
  exists {[ "a" := true; "b" := false ]}. split; [done|].
  repeat (apply Forall_cons; split; [apply (bool_decide_unpack _); by vm_compute|]).
  by apply Forall_nil.
Defined.

Section EstimatesLaws.

Import Sampling.

Lemma times_true_Permutation (atom : string) (result result' : list sample) :
  result ≡ₚ result' → times_true atom result = times_true atom result'.
Proof. intros Hperm. unfold times_true. by rewrite Hperm. Qed.

Lemma times_true_all (atom : string) (result : list sample) :
  times_true atom result = length result ↔
  Forall (λ model_sample : sample, model_sample !! atom = Some true) result.
Proof.
  unfold times_true. induction result as [|s rest IH]; [done|].
  rewrite filter_cons. destruct (decide (s !! atom = Some true)) as [Hs|Hs].
  - cbn [length]. rewrite Forall_cons, <-IH. split; [|intros [_ ->]; done].
    intros [= ?]. done.
  - pose proof (length_filter (λ model_sample : sample,
                                 model_sample !! atom = Some true) rest).
    split; [cbn; lia|]. by intros [? _]%Forall_cons.
Qed.

Lemma times_true_none (atom : string) (result : list sample) :
  times_true atom result = 0 ↔
  Forall (λ model_sample : sample, model_sample !! atom ≠ Some true) result.
Proof.
  unfold times_true. induction result as [|s rest IH]; [done|].
  rewrite filter_cons. destruct (decide (s !! atom = Some true)) as [Hs|Hs].
  - split; [done|]. by intros [? _]%Forall_cons.
  - rewrite Forall_cons, <-IH. split; [done|]. by intros [_ ?].
Qed.

Lemma times_true_mono (atom atom' : string) (result : list sample) :
  Forall (λ model_sample : sample,
            model_sample !! atom = Some true →
            model_sample !! atom' = Some true) result →
  times_true atom result ≤ times_true atom' result.
Proof.
  unfold times_true. induction 1 as [|s rest Hs Hrest IH]; [done|].
  rewrite !filter_cons.
  destruct (decide (s !! atom = Some true)) as [Ha|Ha].
  - rewrite decide_True by auto. cbn. lia.
  - destruct (decide (s !! atom' = Some true)); cbn; lia.
Qed.

Lemma true_div_one (k n : nat) :
  0 < n → (true_div (Z.of_nat k) n == 1)%Q ↔ k = n.
Proof.
  intros Hn. unfold true_div.
  assert (¬ inject_Z (Z.of_nat n) == 0)%Q as Hnz.
  { change 0%Q with (inject_Z 0). rewrite inject_Z_injective. lia. }
  split.
  - intros Heq.
    assert (inject_Z (Z.of_nat k) == inject_Z (Z.of_nat n))%Q as Hkn.
    { rewrite <-(Qmult_div_r (inject_Z (Z.of_nat k)) _ Hnz), Heq.
      apply Qmult_1_r. }
    rewrite inject_Z_injective in Hkn. lia.
  - intros ->. by apply Qmult_inv_r.
Qed.

Lemma true_div_zero (k n : nat) :
  0 < n → (true_div (Z.of_nat k) n == 0)%Q ↔ k = 0.
Proof.
  intros Hn. unfold true_div.
  assert (¬ inject_Z (Z.of_nat n) == 0)%Q as Hnz.
  { change 0%Q with (inject_Z 0). rewrite inject_Z_injective. lia. }
  split.
  - intros Heq.
    assert (inject_Z (Z.of_nat k) == inject_Z 0)%Q as Hk.
    { rewrite <-(Qmult_div_r (inject_Z (Z.of_nat k)) _ Hnz), Heq.
      apply Qmult_0_r. }
    rewrite inject_Z_injective in Hk. lia.
  - intros ->. cbn. apply Qmult_0_l.
Qed.

Lemma true_div_mono (k k' n : nat) :
  k ≤ k' → (true_div (Z.of_nat k) n <= true_div (Z.of_nat k') n)%Q.
Proof.
  intros Hle. unfold true_div, Qdiv. apply Qmult_le_compat_r.
  - rewrite <-Zle_Qle. lia.
  - apply Qinv_le_0_compat. change 0%Q with (inject_Z 0).
    rewrite <-Zle_Qle. lia.
Qed.

End EstimatesLaws.

(** What a returned dictionary holds for an atom it has. *)
Lemma estimates_lookup (result : list Sampling.sample) (est : gmap string Q)
    (atom : string) (q : Q) :
  Sampling.estimates result = inr est → est !! atom = Some q →
  0 < length result ∧
  q = Sampling.true_div (Z.of_nat (Sampling.times_true atom result))
        (length result).
Proof.
  intros Hest Hq. pose proof (estimates_cases result) as Hcases.
  rewrite Hest in Hcases. destruct Hcases as (first & Hhead & _ & Hdom & Hfreq).
  split; [destruct result; [done|cbn; lia]|].
  assert (atom ∈ dom first) as Hin by (rewrite <-Hdom; by eapply elem_of_dom_2).
  specialize (Hfreq atom Hin). congruence.
Qed.

(** X4.  The estimates do not depend on the order of the samples: when all
    samples mention the same atoms, a permutation of the samples gives the
    same dictionary, or the same index error when there is no sample. *)
Theorem estimates_order_irrelevant (result result' : list Sampling.sample)
    (atoms : gset string) :
  result ≡ₚ result' →
  Forall (λ model_sample : Sampling.sample, dom model_sample = atoms) result →
  Sampling.estimates result = Sampling.estimates result'.
Proof.
  intros Hperm Hdom.
  assert (Forall (λ model_sample : Sampling.sample, dom model_sample = atoms)
            result') as Hdom' by (by rewrite <-Hperm).
  destruct result as [|first rest].
  { apply Permutation_nil_l in Hperm. by subst. }
  destruct result' as [|first' rest'].
  { by apply Permutation_nil_r in Hperm. }
  apply Forall_cons in Hdom as Hd. destruct Hd as [Hfirst _].
  apply Forall_cons in Hdom' as Hd. destruct Hd as [Hfirst' _].
  destruct (proj2 (estimates_succeed_iff (first :: rest))) as [est Hest].
  { exists first. split; [done|]. eapply Forall_impl; [exact Hdom|].
    intros s Hs. cbn in Hs. by rewrite Hs, Hfirst. }
  destruct (proj2 (estimates_succeed_iff (first' :: rest'))) as [est' Hest'].
  { exists first'. split; [done|]. eapply Forall_impl; [exact Hdom'|].
    intros s Hs. cbn in Hs. by rewrite Hs, Hfirst'. }
  rewrite Hest, Hest'. f_equal. apply map_eq. intros atom.
  pose proof (estimates_cases (first :: rest)) as H1.
  pose proof (estimates_cases (first' :: rest')) as H2.
  rewrite Hest in H1. rewrite Hest' in H2.
  destruct H1 as (f1 & Hh1 & _ & Hd1 & Hf1).
  destruct H2 as (f2 & Hh2 & _ & Hd2 & Hf2). cbn in Hh1, Hh2.
  injection Hh1 as ->. injection Hh2 as ->.
  destruct (decide (atom ∈ dom f1)) as [Hin|Hout].
  - rewrite Hf1 by done. rewrite Hf2 by (by rewrite Hfirst', <-Hfirst).
    by rewrite (times_true_Permutation atom _ _ Hperm),
      (Permutation_length Hperm).
  - assert (est !! atom = None) as -> by (apply not_elem_of_dom; by rewrite Hd1).
    symmetry. apply not_elem_of_dom. by rewrite Hd2, Hfirst', <-Hfirst.
Qed.

Lemma estimates_order_irrelevant_witness :
  Sampling.estimates
    [ {[ "a" := true; "b" := false ]}; {[ "a" := false; "b" := false ]} ]
  = Sampling.estimates
      [ {[ "a" := false; "b" := false ]}; {[ "a" := true; "b" := false ]} ].
Proof.
  apply (estimates_order_irrelevant _ _ {[ "a"; "b" ]}).
  - apply Permutation_swap.
  - repeat (apply Forall_cons; split;
              [apply (bool_decide_unpack _); by vm_compute|]).
    by apply Forall_nil.
Defined.

(** X5.  An estimate is one exactly when the atom is true in every sample,
    and zero exactly when it is true in none. *)
Theorem estimates_extremes (result : list Sampling.sample)
    (est : gmap string Q) (atom : string) (q : Q) :
  Sampling.estimates result = inr est → est !! atom = Some q →
  ((q == 1)%Q ↔
   Forall (λ model_sample : Sampling.sample,
             model_sample !! atom = Some true) result) ∧
  ((q == 0)%Q ↔
   Forall (λ model_sample : Sampling.sample,
             model_sample !! atom ≠ Some true) result).
Proof.
  intros Hest Hq. destruct (estimates_lookup _ _ _ _ Hest Hq) as [Hlen ->].
  split.
  - by rewrite true_div_one, times_true_all.
  - by rewrite true_div_zero, times_true_none.
Qed.

Lemma estimates_extremes_witness :
  ∃ est q,
    Sampling.estimates
      [ {[ "a" := true; "b" := false ]}; {[ "a" := true; "b" := false ]} ]
    = inr est ∧ est !! "a" = Some q ∧ (q == 1)%Q.
Proof.
  destruct (Sampling.estimates
      [ {[ "a" := true; "b" := false ]}; {[ "a" := true; "b" := false ]} ])
    as [e|est] eqn:Hest; [by vm_compute in Hest|].
  destruct (est !! "a") as [q|] eqn:Hq;
    [|vm_compute in Hest; simplify_eq; by vm_compute in Hq].
  exists est, q. split; [done|]. split; [done|].
  apply (proj1 (estimates_extremes _ est "a" q Hest Hq)).
  by repeat constructor.
Defined.

(** X6.  The estimates respect implication between atoms: when in every
    sample [atom] is true only if [atom'] is, the estimate of [atom] is at
    most that of [atom']. *)
Theorem estimates_monotone (result : list Sampling.sample)
    (est : gmap string Q) (atom atom' : string) (q q' : Q) :
  Sampling.estimates result = inr est →
  est !! atom = Some q → est !! atom' = Some q' →
  Forall (λ model_sample : Sampling.sample,
            model_sample !! atom = Some true →
            model_sample !! atom' = Some true) result →
  (q <= q')%Q.
Proof.
  intros Hest Hq Hq' Himp.
  destruct (estimates_lookup _ _ _ _ Hest Hq) as [_ ->].
  destruct (estimates_lookup _ _ _ _ Hest Hq') as [_ ->].
  by apply true_div_mono, times_true_mono.
Qed.

Lemma estimates_monotone_witness :
  ∃ est q q',
    Sampling.estimates
      [ {[ "a" := true; "c" := true ]}; {[ "a" := true; "c" := false ]} ]
    = inr est ∧ est !! "c" = Some q ∧ est !! "a" = Some q' ∧ (q <= q')%Q.
Proof.
  destruct (Sampling.estimates
      [ {[ "a" := true; "c" := true ]}; {[ "a" := true; "c" := false ]} ])
    as [e|est] eqn:Hest; [by vm_compute in Hest|].
  destruct (est !! "c") as [q|] eqn:Hq;
    [|vm_compute in Hest; simplify_eq; by vm_compute in Hq].
  destruct (est !! "a") as [q'|] eqn:Hq';
    [|vm_compute in Hest; simplify_eq; by vm_compute in Hq'].
  exists est, q, q'. split; [done|]. split; [done|]. split; [done|].
  apply (estimates_monotone _ est "c" "a" q q' Hest Hq Hq').
  by repeat constructor.
Defined.

(** * More on the helpers *)

Section HelpersAnyEngine.

Context {S : Type} (h : engine S).

Lemma exec_bind_returned {A B} (p : prog A) (f : A → prog B) (σ : S) (x : A) :
  result (exec h p σ) = Returned x →
  result (exec h (bind p f) σ) = result (exec h (f x) (final (exec h p σ))) ∧
  final (exec h (bind p f) σ) = final (exec h (f x) (final (exec h p σ))).
Proof. intros Hres. rewrite exec_bind. cbn. by rewrite Hres. Qed.

(** When [+=] returns its left operand, the loop returns the handle it
    started with. *)
Lemma add_statements_same_handle (statements : list statement) :
  (∀ d st σ x σ', h _ (IAdd d st) σ = (inr x, σ') → x = d) →
  ∀ db2 σ x,
    result (exec h (MDP.add_statements db2 statements) σ) = Returned x →
    x = db2.
Proof.
  intros Hiadd. induction statements as [|st rest IH]; intros db2 σ x.
  - cbn. by intros [= ->].
  - cbn. unfold_helpers. cbn [exec api_of].
    destruct (h _ (IAdd db2 st) σ) as [[e|d] σ'] eqn:Hst; [done|].
    apply Hiadd in Hst as ->. cbn. apply IH.
Qed.

End HelpersAnyEngine.

(** X7.  Against every engine whose [+=] returns its left operand, the
    handle [extend] returns is the one [db.extend()] returned: the
    rebinding of [db2] in the loop never changes it. *)
Theorem extend_returns_extension {S} (h : engine S) (σ σ1 : S)
    (db db2 : handle) (model_str : string) (x : handle) :
  (∀ d st σ x σ', h _ (IAdd d st) σ = (inr x, σ') → x = d) →
  h _ (DbExtend db) σ = (inr db2, σ1) →
  result (exec h (MDP.extend db model_str) σ) = Returned x →
  x = db2.
Proof.
  intros Hiadd Hext. unfold_helpers. cbn [exec api_of]. rewrite Hext.
  destruct (h _ (PrologString model_str) σ1) as [[e|p] σ2]; [done|].
  destruct (h _ (Statements p) σ2) as [[e|statements] σ3]; [done|].
  cbn. by apply add_statements_same_handle.
Qed.

Lemma extend_returns_extension_witness :
  result (exec Notebook.engine (MDP.extend 0 Notebook.m2)
            [ProbLog.Node None Notebook.m1_program])
  = Returned 1.
Proof.
  destruct (result (exec Notebook.engine (MDP.extend 0 Notebook.m2)
                      [ProbLog.Node None Notebook.m1_program]))
    as [x|e] eqn:Hres; [|by vm_compute in Hres].
  f_equal.
  apply (extend_returns_extension Notebook.engine
           [ProbLog.Node None Notebook.m1_program]
           [ProbLog.Node None Notebook.m1_program; ProbLog.Node (Some 0) []]
           0 1 Notebook.m2 x); [|reflexivity|exact Hres].
  intros d st σ y σ' Hy. cbn in Hy. by case_match; simplify_eq.
Defined.

Section MoreDatabases.

Import ProbLog.

Variable parse : string → error + program.

Lemma well_formed_root (σ : store) (p : program) :
  well_formed σ → well_formed (σ ++ [Node None p]).
Proof.
  intros Hwf d n q Hd Hq. destruct (decide (d < length σ)) as [Hin|Hout].
  - rewrite lookup_app_l in Hd by done. by eapply Hwf.
  - assert (d = length σ) as ->.
    { apply lookup_lt_Some in Hd. rewrite length_app in Hd. cbn in Hd. lia. }
    rewrite list_lookup_middle in Hd by done. by simplify_eq.
Qed.

Lemma precompile_problog (σ : store) (model_str : string) :
  exec (problog parse) (MDP.precompile model_str) σ
  = match parse model_str with
    | inl e => raised ApiPrologString e σ
    | inr p =>
        RunResult (Returned (length σ)) (σ ++ [Node None p]) []
          [(ApiPrologString, None); (ApiPrepare, None)]
    end.
Proof.
  unfold_helpers. cbn [exec api_of problog]. by destruct (parse model_str).
Qed.

End MoreDatabases.

(** X8.  [precompile] of a text the parser accepts returns a handle that
    did not exist before; through it exactly the statements of the text are
    visible, and every existing database is left as it was. *)
Theorem precompile_allocates (parse : string → error + program)
    (σ : ProbLog.store) (model_str : string) (p : program) :
  ProbLog.well_formed σ → parse model_str = inr p →
  ∃ db σ',
    result (exec (ProbLog.problog parse) (MDP.precompile model_str) σ)
    = Returned db ∧
    final (exec (ProbLog.problog parse) (MDP.precompile model_str) σ) = σ' ∧
    σ !! db = None ∧
    ProbLog.contents σ' db = p ∧
    (∀ d, d < length σ →
       σ' !! d = σ !! d ∧ ProbLog.contents σ' d = ProbLog.contents σ d) ∧
    ProbLog.well_formed σ'.
Proof.
  intros Hwf Hparse. rewrite precompile_problog, Hparse.
  exists (length σ), (σ ++ [ProbLog.Node None p]).
  split; [done|]. split; [done|]. split; [by apply lookup_ge_None_2|].
  split; [apply contents_root|]. split; [|by apply well_formed_root].
  intros d Hd. split; [by apply lookup_app_l|by apply contents_alloc].
Qed.

Lemma precompile_allocates_witness :
  ∃ db σ',
    result (exec Notebook.engine (MDP.precompile Notebook.m2)
              [ProbLog.Node None Notebook.m1_program]) = Returned db ∧
    final (exec Notebook.engine (MDP.precompile Notebook.m2)
             [ProbLog.Node None Notebook.m1_program]) = σ' ∧
    ProbLog.contents σ' db = Notebook.m2_program ∧
    ProbLog.contents σ' 0 = Notebook.m1_program.
Proof.
  destruct (precompile_allocates Notebook.parse
              [ProbLog.Node None Notebook.m1_program] Notebook.m2
              Notebook.m2_program)
    as (db & σ' & Hres & Hfin & _ & Hnew & Hold & _).
  - intros [|d] n q Hd Hq; cbn in Hd; by simplify_eq.
  - reflexivity.
  - exists db, σ'. split; [done|]. split; [done|]. split; [done|].
    apply (Hold 0). cbn. lia.
Defined.

(** X9.  [extend] calls [db.extend()] before it reads the text.  Against
    every engine, when [db.extend()] has answered and the text is rejected,
    by the constructor or by the iteration, [extend] raises that error and
    no [+=] is made.  In the model of the databases the new database then
    exists, empty: it shows what [db] contains, and every existing database
    is left as it was. *)
Theorem extend_rejected_text :
  (∀ S (h : engine S) (σ σ1 σ' : S) (db db2 : handle) (model_str : string)
     (e : error),
     h _ (DbExtend db) σ = (inr db2, σ1) →
     (h _ (PrologString model_str) σ1 = (inl e, σ')) ∨
     (∃ p σ2, h _ (PrologString model_str) σ1 = (inr p, σ2) ∧
              h _ (Statements p) σ2 = (inl e, σ')) →
     fails_with (exec h (MDP.extend db model_str) σ) e σ' ∧
     (ApiIAdd ∉ api_calls (exec h (MDP.extend db model_str) σ)) ∧
     head (calls (exec h (MDP.extend db model_str) σ))
     = Some (ApiDbExtend, None)) ∧
  (∀ (parse : string → error + program) (σ : ProbLog.store) (db : handle)
     (model_str : string) (e : error),
     ProbLog.well_formed σ → db < length σ → parse model_str = inl e →
     fails_with (exec (ProbLog.problog parse) (MDP.extend db model_str) σ) e
       (σ ++ [ProbLog.Node (Some db) []]) ∧
     ProbLog.contents (σ ++ [ProbLog.Node (Some db) []]) (length σ)
     = ProbLog.contents σ db ∧
     ∀ d, d < length σ →
       ProbLog.contents (σ ++ [ProbLog.Node (Some db) []]) d
       = ProbLog.contents σ d).
Proof.
  split.
  - intros S h σ σ1 σ' db db2 model_str e Hext Hrej.
    unfold_helpers. cbn [exec api_of]. rewrite Hext.
    destruct Hrej as [Hstr|(p & σ2 & Hstr & Hiter)].
    + rewrite Hstr. split; [done|]. split; [|done].
      unfold api_calls. cbn. rewrite !elem_of_cons, elem_of_nil.
      by intros [|[|]].
    + rewrite Hstr, Hiter. split; [done|]. split; [|done].
      unfold api_calls. cbn. rewrite !elem_of_cons, elem_of_nil.
      by intros [|[|[|]]].
  - intros parse σ db model_str e Hwf Hlt Hparse. split; [|split].
    + unfold_helpers. cbn [exec api_of ProbLog.problog].
      destruct (lookup_lt_is_Some_2 σ db Hlt) as [n ->]. by rewrite Hparse.
    + rewrite contents_layer by done. apply app_nil_r.
    + intros d Hd. by apply contents_alloc.
Qed.

Lemma extend_rejected_text_witness :
  fails_with (exec Notebook.engine (MDP.extend 0 "w1 :- ")
                [ProbLog.Node None Notebook.m1_program])
    (ParseError "w1 :- ")
    [ProbLog.Node None Notebook.m1_program; ProbLog.Node (Some 0) []] ∧
  (ApiIAdd ∉ api_calls (exec Notebook.engine (MDP.extend 0 "w1 :- ")
                          [ProbLog.Node None Notebook.m1_program])) ∧
  ProbLog.contents
    [ProbLog.Node None Notebook.m1_program; ProbLog.Node (Some 0) []] 1
  = Notebook.m1_program.
Proof.
  destruct extend_rejected_text as [Hany Hmodel].
  destruct (Hany _ Notebook.engine [ProbLog.Node None Notebook.m1_program]
              [ProbLog.Node None Notebook.m1_program; ProbLog.Node (Some 0) []]
              [ProbLog.Node None Notebook.m1_program; ProbLog.Node (Some 0) []]
              0 1 "w1 :- " (ParseError "w1 :- "))
    as (Hfails & Hnoadd & _); [reflexivity|by left|].
  destruct (Hmodel Notebook.parse [ProbLog.Node None Notebook.m1_program] 0
              "w1 :- " (ParseError "w1 :- ")) as (_ & Hnew & _).
  - intros [|d] n q Hd Hq; cbn in Hd; by simplify_eq.
  - cbn. lia.
  - reflexivity.
  - split; [done|]. split; [done|]. exact Hnew.
Defined.

Section Composition.

Import ProbLog.

Variable parse : string → error + program.

Lemma extend_then (σ : store) (db : handle) (model_str : string)
    (statements : list statement) {B} (f : handle → prog B) :
  db < length σ → parse model_str = inr statements →
  result (exec (problog parse) (bind (MDP.extend db model_str) f) σ)
  = result (exec (problog parse) (f (length σ))
              (σ ++ [Node (Some db) statements])) ∧
  final (exec (problog parse) (bind (MDP.extend db model_str) f) σ)
  = final (exec (problog parse) (f (length σ))
             (σ ++ [Node (Some db) statements])).
Proof.
  intros Hlt Hparse.
  destruct (extend_problog parse σ db model_str statements Hlt Hparse)
    as [Hres Hfin].
  destruct (exec_bind_returned (problog parse) (MDP.extend db model_str) f σ
              (length σ) Hres) as [-> ->].
  by rewrite Hfin.
Qed.

End Composition.

(** X10.  Extending twice in a row, as the notebook does from one cell to
    the next: through the last handle the statements of the first text and
    then those of the second are visible on top of what [db] contains. *)
Theorem extend_chain (parse : string → error + program) (σ : ProbLog.store)
    (db : handle) (text1 text2 : string) (p1 p2 : program) :
  ProbLog.well_formed σ → db < length σ →
  parse text1 = inr p1 → parse text2 = inr p2 →
  ∃ db2 σ',
    result (exec (ProbLog.problog parse)
              (db1 ← MDP.extend db text1; MDP.extend db1 text2) σ)
    = Returned db2 ∧
    final (exec (ProbLog.problog parse)
             (db1 ← MDP.extend db text1; MDP.extend db1 text2) σ) = σ' ∧
    ProbLog.contents σ' db2 = ProbLog.contents σ db ++ p1 ++ p2 ∧
    ProbLog.contents σ' db = ProbLog.contents σ db.
Proof.
  intros Hwf Hlt Hp1 Hp2.
  set (σ1 := σ ++ [ProbLog.Node (Some db) p1]).
  assert (ProbLog.well_formed σ1) as Hwf1 by by apply well_formed_alloc.
  assert (length σ < length σ1) as Hlt1.
  { unfold σ1. rewrite length_app. cbn. lia. }
  destruct (extend_then parse σ db text1 p1 (λ db1, MDP.extend db1 text2)
              Hlt Hp1) as [Hres Hfin].
  destruct (extend_problog parse σ1 (length σ) text2 p2 Hlt1 Hp2)
    as [Hres2 Hfin2].
  exists (length σ1), (σ1 ++ [ProbLog.Node (Some (length σ)) p2]).
  unfold mbind, prog_bind. fold σ1 in Hres, Hfin.
  split; [by rewrite Hres|]. split; [by rewrite Hfin|]. split.
  - rewrite contents_layer by done. unfold σ1.
    rewrite contents_layer by done. by rewrite app_assoc.
  - rewrite contents_alloc by (done || lia). unfold σ1.
    by apply contents_alloc.
Qed.

Lemma extend_chain_witness :
  ∃ db2 σ',
    result (exec Notebook.engine
              (db1 ← MDP.extend 0 Notebook.m2; MDP.extend db1 Notebook.m3)
              [ProbLog.Node None Notebook.m1_program]) = Returned db2 ∧
    final (exec Notebook.engine
             (db1 ← MDP.extend 0 Notebook.m2; MDP.extend db1 Notebook.m3)
             [ProbLog.Node None Notebook.m1_program]) = σ' ∧
    ProbLog.contents σ' db2
    = Notebook.m1_program ++ Notebook.m2_program ++ Notebook.m3_program.
Proof.
  destruct (extend_chain Notebook.parse
              [ProbLog.Node None Notebook.m1_program] 0
              Notebook.m2 Notebook.m3 Notebook.m2_program Notebook.m3_program)
    as (db2 & σ' & Hres & Hfin & Hlayers & _).
  - intros [|d] n q Hd Hq; cbn in Hd; by simplify_eq.
  - cbn. lia.
  - reflexivity.
  - reflexivity.
  - by exists db2, σ'.
Defined.

(** X11.  Extending the same database twice, as the notebook does for its
    alternative models: the two handles are different, each shows what [db]
    contains followed by its own text only, and [db] is left as it was. *)
Theorem extend_siblings (parse : string → error + program) (σ : ProbLog.store)
    (db : handle) (text1 text2 : string) (p1 p2 : program) :
  ProbLog.well_formed σ → db < length σ →
  parse text1 = inr p1 → parse text2 = inr p2 →
  ∃ db1 db2 σ',
    result (exec (ProbLog.problog parse)
              (db1 ← MDP.extend db text1;
               db2 ← MDP.extend db text2;
               mret (db1, db2)) σ)
    = Returned (db1, db2) ∧
    final (exec (ProbLog.problog parse)
             (db1 ← MDP.extend db text1;
              db2 ← MDP.extend db text2;
              mret (db1, db2)) σ) = σ' ∧
    db1 ≠ db2 ∧ db1 ≠ db ∧ db2 ≠ db ∧
    ProbLog.contents σ' db1 = ProbLog.contents σ db ++ p1 ∧
    ProbLog.contents σ' db2 = ProbLog.contents σ db ++ p2 ∧
    ProbLog.contents σ' db = ProbLog.contents σ db.
Proof.
  intros Hwf Hlt Hp1 Hp2.
  set (σ1 := σ ++ [ProbLog.Node (Some db) p1]).
  assert (ProbLog.well_formed σ1) as Hwf1 by by apply well_formed_alloc.
  assert (length σ1 = Datatypes.S (length σ)) as Hlen1.
  { unfold σ1. rewrite length_app. cbn. lia. }
  destruct (extend_then parse σ db text1 p1
              (λ db1, db2 ← MDP.extend db text2; mret (db1, db2)) Hlt Hp1)
    as [Hres Hfin].
  destruct (extend_then parse σ1 db text2 p2
              (λ db2, mret (length σ, db2)) ltac:(lia) Hp2)
    as [Hres2 Hfin2].
  exists (length σ), (length σ1), (σ1 ++ [ProbLog.Node (Some db) p2]).
  unfold mbind, prog_bind in *. fold σ1 in Hres, Hfin.
  split; [by rewrite Hres, Hres2|]. split; [by rewrite Hfin, Hfin2|].
  split; [lia|]. split; [lia|]. split; [lia|]. split; [|split].
  - rewrite contents_alloc by (done || lia). by apply contents_layer.
  - rewrite contents_layer by (done || lia). f_equal. by apply contents_alloc.
  - rewrite contents_alloc by (done || lia). by apply contents_alloc.
Qed.

Lemma extend_siblings_witness :
  ∃ db1 db2 σ',
    final (exec Notebook.engine
             (db1 ← MDP.extend 0 Notebook.m2;
              db2 ← MDP.extend 0 Notebook.m3;
              mret (db1, db2))
             [ProbLog.Node None Notebook.m1_program]) = σ' ∧
    db1 ≠ db2 ∧
    ProbLog.contents σ' db1 = Notebook.m1_program ++ Notebook.m2_program ∧
    ProbLog.contents σ' db2 = Notebook.m1_program ++ Notebook.m3_program.
Proof.
  destruct (extend_siblings Notebook.parse
              [ProbLog.Node None Notebook.m1_program] 0
              Notebook.m2 Notebook.m3 Notebook.m2_program Notebook.m3_program)
    as (db1 & db2 & σ' & _ & Hfin & Hne & _ & _ & H1 & H2 & _).
  - intros [|d] n q Hd Hq; cbn in Hd; by simplify_eq.
  - cbn. lia.
  - reflexivity.
  - reflexivity.
  - by exists db1, db2, σ'.
Defined.

(** X12.  The two [run] helpers agree on every text: the introduction's
    prints exactly the mapping that the MDP notebook's returns, and they
    raise the same errors, although the latter goes through a database. *)
Theorem runs_agree (parse : string → error + program) (σ : ProbLog.store)
    (model_str : string) :
  stdout (exec (ProbLog.problog parse) (Intro.run model_str) σ)
  = match result (exec (ProbLog.problog parse) (MDP.run model_str) σ) with
    | Returned m => [m]
    | Raised _ => []
    end ∧
  ∀ e, result (exec (ProbLog.problog parse) (Intro.run model_str) σ) = Raised e
       ↔ result (exec (ProbLog.problog parse) (MDP.run model_str) σ) = Raised e.
Proof.
  unfold_helpers. cbn [exec api_of ProbLog.problog].
  destruct (parse model_str) as [e|p].
  { cbn. split; [done|]. intros e'. split; by intros [= ->]. }
  unfold ProbLog.checked.
  rewrite list_lookup_middle by done. cbn [compiled]. rewrite contents_root.
  destruct (ProbLog.wmc (ProbLog.ground p)) as [e|m]; cbn.
  - split; [done|]. intros e'. split; by intros [= ->].
  - split; [done|]. intros e'. split; intros; discriminate.
Qed.

Lemma runs_agree_witness :
  ∃ m, stdout (exec Notebook.engine (Intro.run Notebook.m4) []) = [m] ∧
       result (exec Notebook.engine (MDP.run Notebook.m4) []) = Returned m.
Proof.
  destruct (result (exec Notebook.engine (MDP.run Notebook.m4) []))
    as [m|e] eqn:Hres; [|by vm_compute in Hres].
  exists m. split; [|done].
  pose proof (proj1 (runs_agree Notebook.parse [] Notebook.m4)) as Hout.
  unfold Notebook.engine in Hres. by rewrite Hres in Hout.
Defined.

(** * The loops of the MDP notebook *)

Section Loops.

Import Cells.

(** A loop that appends one element per item builds the mapped list. *)
Lemma foldl_append {A B} (f : A → B) (l : list A) (acc : list B) :
  foldl (λ acc x, acc ++ [f x]) acc l = acc ++ (f <$> l).
Proof.
  revert acc. induction l as [|x l IH]; intros acc; cbn.
  - by rewrite app_nil_r.
  - by rewrite IH, <-app_assoc.
Qed.

Lemma timesteps_upto_map (tmax : nat) :
  timesteps_upto tmax
  = (λ i, Term "timestep" [Constant (Z.of_nat i)]) <$> seq 0 tmax.
Proof. unfold timesteps_upto. by rewrite foldl_append. Qed.

Lemma evidence_for_map (computers : list term) (values : list bool) :
  evidence_for computers values
  = (λ item, (Term "running" [Constant 0; item.1], item.2))
      <$> zip computers values.
Proof. unfold evidence_for. by rewrite foldl_append. Qed.

Lemma both_values_spec (k : nat) (result : list (list bool)) :
  (∀ l, l ∈ result ↔ length l = k) → NoDup result →
  (∀ l, l ∈ both_values result ↔ length l = Datatypes.S k) ∧
  NoDup (both_values result) ∧
  length (both_values result) = 2 * length result.
Proof.
  intros Hall Hnodup. unfold both_values. split; [|split].
  - intros l. rewrite list_elem_of_bind. split.
    + intros (x & Hl & Hx). apply Hall in Hx. cbn in Hl.
      rewrite !elem_of_cons, elem_of_nil in Hl.
      destruct Hl as [->|[->|[]]]; rewrite length_app; cbn; lia.
    + intros Hlen. destruct l as [|b l _] using rev_ind; [done|].
      rewrite length_app in Hlen. cbn in Hlen. exists l. split.
      * cbn. destruct b; [left|right; left].
      * apply Hall. lia.
  - apply NoDup_bind; [|intros x _; cbn|done].
    + intros x1 x2 y _ _ H1 H2. cbn in H1, H2.
      rewrite !elem_of_cons, elem_of_nil in H1, H2.
      destruct H1 as [->|[->|[]]], H2 as [H2|[H2|[]]];
        by apply app_inj_tail in H2 as [? _].
    + apply NoDup_cons. split.
      * rewrite list_elem_of_singleton. by intros [_ ?]%app_inj_tail.
      * apply NoDup_singleton.
  - clear. induction result as [|x result IH]; [done|].
    rewrite bind_cons, length_app, IH. cbn. lia.
Qed.

Lemma product_rounds (n : nat) :
  ∀ (k : nat) (result : list (list bool)),
    (∀ l, l ∈ result ↔ length l = k) → NoDup result →
    (∀ l, l ∈ foldl (λ result pool, x ← result; y ← pool; [x ++ [y]])
                result (replicate n [true; false])
          ↔ length l = k + n) ∧
    NoDup (foldl (λ result pool, x ← result; y ← pool; [x ++ [y]])
             result (replicate n [true; false])) ∧
    length (foldl (λ result pool, x ← result; y ← pool; [x ++ [y]])
              result (replicate n [true; false]))
    = length result * 2 ^ n.
Proof.
  induction n as [|n IH]; intros k result Hall Hnodup.
  - cbn. rewrite Nat.add_0_r, Nat.mul_1_r. by repeat split; try apply Hall.
  - cbn [replicate foldl].
    destruct (both_values_spec k result Hall Hnodup) as (Hall' & Hnodup' & Hlen').
    destruct (IH (Datatypes.S k) (both_values result) Hall' Hnodup')
      as (Hall'' & Hnodup'' & Hlen'').
    unfold both_values in *. split; [|split].
    + intros l. rewrite Hall''. lia.
    + done.
    + rewrite Hlen'', Hlen'. cbn. lia.
Qed.

End Loops.

(** X14.  The loop of cell 3 builds one query per timestep: for every
    horizon the list has that many terms, the i-th is [timestep(i)], and no
    term occurs twice. *)
Theorem timesteps_enumerated (tmax : nat) :
  length (Cells.timesteps_upto tmax) = tmax ∧
  (∀ i, i < tmax →
     Cells.timesteps_upto tmax !! i
     = Some (Cells.Term "timestep" [Cells.Constant (Z.of_nat i)])) ∧
  (∀ i, tmax ≤ i → Cells.timesteps_upto tmax !! i = None) ∧
  NoDup (Cells.timesteps_upto tmax).
Proof.
  rewrite timesteps_upto_map. split; [|split; [|split]].
  - by rewrite length_fmap, length_seq.
  - intros i Hi. by rewrite list_lookup_fmap, lookup_seq_lt.
  - intros i Hi. apply lookup_ge_None_2. by rewrite length_fmap, length_seq.
  - apply NoDup_fmap_2_strong; [|apply NoDup_seq].
    intros i j _ _ [= Hij]. lia.
Qed.

Lemma timesteps_enumerated_witness :
  length Cells.timesteps = 10 ∧
  Cells.timesteps !! 9 = Some (Cells.Term "timestep" [Cells.Constant 9]) ∧
  Cells.timesteps !! 10 = None.
Proof.
  destruct (timesteps_enumerated Cells.TMAX) as (Hlen & Hin & Hout & _).
  split; [exact Hlen|]. split.
  - apply (Hin 9). unfold Cells.TMAX. lia.
  - apply (Hout 10). unfold Cells.TMAX. lia.
Defined.

(** X15.  The product of cell 4 enumerates the state space: for [n]
    repetitions of (True, False) it yields every tuple of [n] truth values,
    each exactly once, [2^n] tuples in all. *)
Theorem initial_states_exhaustive (n : nat) :
  (∀ values : list bool,
     values ∈ Cells.initial_states n ↔ length values = n) ∧
  NoDup (Cells.initial_states n) ∧
  length (Cells.initial_states n) = 2 ^ n.
Proof.
  destruct (product_rounds n 0 [[]]) as (Hall & Hnodup & Hlen).
  - intros l. rewrite list_elem_of_singleton. split; [by intros ->|].
    by intros ->%nil_length_inv.
  - apply NoDup_singleton.
  - unfold Cells.initial_states, Cells.product. split; [|split].
    + intros values. by rewrite Hall.
    + done.
    + rewrite Hlen. cbn. lia.
Qed.

(** The order in which cell 4 visits the states of three computers, as its
    recorded output shows it. *)
Example initial_states_3 :
  Cells.initial_states 3
  = [ [true; true; true]; [true; true; false]; [true; false; true];
      [true; false; false]; [false; true; true]; [false; true; false];
      [false; false; true]; [false; false; false] ].
Proof. reflexivity. Qed.

Lemma fst_zip_take {A B} (l : list A) (k : list B) :
  (zip l k).*1 = take (length k) l.
Proof.
  revert k. induction l as [|x l IH]; intros [|y k]; cbn; [done..|].
  by rewrite IH.
Qed.

(** X16.  Cell 4 repeats (True, False) three times, whatever the number of
    computers: it makes eight iterations, and the evidence of each fixes
    the first three computers at most, with the atoms [running(0, c)] in
    the order of the computers.  For three computers, as in the notebook,
    the truth values of an evidence are the tuple of the iteration, and
    over the iterations every assignment to the computers occurs exactly
    once; with fewer than three computers some assignment occurs twice. *)
Theorem initial_evidences_exhaustive (computers : list Cells.term) :
  length (Cells.initial_evidences computers 3) = 8 ∧
  (∀ evidence,
     evidence ∈ Cells.initial_evidences computers 3 →
     evidence.*1
     = (λ c, Cells.Term "running" [Cells.Constant 0; c]) <$> take 3 computers) ∧
  (length computers = 3 →
   NoDup (Cells.initial_evidences computers 3) ∧
   ∀ values : list bool,
     length values = 3 →
     (Cells.evidence_for computers values).*1
     = (λ c, Cells.Term "running" [Cells.Constant 0; c]) <$> computers ∧
     (Cells.evidence_for computers values).*2 = values ∧
     Cells.evidence_for computers values ∈ Cells.initial_evidences computers 3) ∧
  (length computers < 3 → ¬ NoDup (Cells.initial_evidences computers 3)).
Proof.
  destruct (initial_states_exhaustive 3) as (Hall & Hnodup & Hlen).
  unfold Cells.initial_evidences. split; [|split; [|split]].
  - by rewrite length_fmap.
  - intros evidence (values & -> & Hvalues%Hall)%list_elem_of_fmap.
    rewrite evidence_for_map, <-list_fmap_compose.
    rewrite <-Hvalues, <-fst_zip_take. by rewrite <-list_fmap_compose.
  - intros Hcomputers.
    assert (∀ values : list bool, length values = 3 →
      (Cells.evidence_for computers values).*1
      = (λ c, Cells.Term "running" [Cells.Constant 0; c]) <$> computers ∧
      (Cells.evidence_for computers values).*2 = values) as Hev.
    { intros values Hvalues. rewrite evidence_for_map. split.
      - rewrite <-list_fmap_compose.
        rewrite <-(fst_zip computers values) at 2 by lia.
        by rewrite <-list_fmap_compose.
      - rewrite <-list_fmap_compose.
        rewrite <-(snd_zip computers values) at 2 by lia. done. }
    split.
    + apply NoDup_fmap_2_strong; [|done].
      intros v1 v2 Hv1%Hall Hv2%Hall Heq.
      destruct (Hev v1 Hv1) as [_ <-]. destruct (Hev v2 Hv2) as [_ <-].
      by rewrite Heq.
    + intros values Hvalues. destruct (Hev values Hvalues) as [H1 H2].
      split; [done|]. split; [done|].
      apply list_elem_of_fmap_2. by apply Hall.
  - intros Hfew Hnd.
    destruct computers as [|c1 [|c2 [|c3 computers]]]; cbn in Hfew; try lia.
    + by pose proof (NoDup_lookup _ 0 1 _ Hnd eq_refl eq_refl).
    + by pose proof (NoDup_lookup _ 0 1 _ Hnd eq_refl eq_refl).
    + by pose proof (NoDup_lookup _ 0 1 _ Hnd eq_refl eq_refl).
Qed.

Lemma initial_evidences_exhaustive_witness :
  (Cells.evidence_for
     [Cells.Term "c1" []; Cells.Term "c2" []; Cells.Term "c3" []]
     [true; true; false]).*2 = [true; true; false] ∧
  NoDup (Cells.initial_evidences
           [Cells.Term "c1" []; Cells.Term "c2" []; Cells.Term "c3" []] 3) ∧
  ¬ NoDup (Cells.initial_evidences
             [Cells.Term "c1" []; Cells.Term "c2" []] 3).
Proof.
  destruct (initial_evidences_exhaustive
              [Cells.Term "c1" []; Cells.Term "c2" []; Cells.Term "c3" []])
    as (_ & _ & Hthree & _).
  destruct (Hthree eq_refl) as [Hnodup Hev].
  destruct (initial_evidences_exhaustive
              [Cells.Term "c1" []; Cells.Term "c2" []])
    as (_ & _ & _ & Htwo).
  split; [by apply (Hev [true; true; false])|]. split; [done|].
  apply Htwo. cbn. lia.
Defined.
